(** * python-qm: text normalisation, keyword matching and summary

    A shallow embedding of [main.py]: the normaliser [clean_text], the fold
    key [normalize_for_match], the matcher loop of [match_keywords], and the
    aggregator ([build_summary], [list_keywords], [search_keyword]).

    A Python [str] is a sequence of Unicode code points and is modelled as
    [list N]; comparisons, slicing and searching are those of CPython.
    The three services that CPython takes from the Unicode character
    database ([unicodedata.normalize] with form NFKC, [str.lower], and the
    alphanumeric test behind the regular expression class [\w]) are the
    fields of a record [UnicodeDB]; the program is a function of that
    record.  Everything else (white space, line boundaries, the punctuation
    table, sorting, counting) is written out. *)

From Stdlib Require Import List NArith Arith Bool Lia.
From Stdlib Require Import Permutation Sorted.
From Stdlib Require Import Ascii String DecimalString.
Import ListNotations.

(* ===================================================================== *)
(** * Python strings and built-ins                                        *)
(* ===================================================================== *)

Module Py.

Local Open Scope N_scope.

Definition codepoint := N.
Definition str := list codepoint.

Definition str_eq_dec : forall a b : str, {a = b} + {a <> b} :=
  list_eq_dec N.eq_dec.

Definition str_eqb (a b : str) : bool :=
  if str_eq_dec a b then true else false.

(** A string literal of the source that is pure ASCII. *)
Definition lit (s : string) : str :=
  map N_of_ascii (list_ascii_of_string s).

(** [str(n)] for a non-negative integer, as used by f-strings. *)
Definition str_of_nat (n : nat) : str :=
  lit (NilZero.string_of_uint (Nat.to_uint n)).

(** Truthiness of a string: [not s]. *)
Definition is_empty (s : str) : bool :=
  match s with [] => true | _ => false end.

(** ** White space and line boundaries

    [str.strip()] without argument and the class [\s] of [re] on [str]
    patterns both use [Py_UNICODE_ISSPACE]; the code points are those of
    [_PyUnicode_IsWhitespace]. *)
Definition isspace (c : codepoint) : bool :=
  ((0x09 <=? c) && (c <=? 0x0D)) || ((0x1C <=? c) && (c <=? 0x20))
  || (c =? 0x85) || (c =? 0xA0) || (c =? 0x1680)
  || ((0x2000 <=? c) && (c <=? 0x200A))
  || (c =? 0x2028) || (c =? 0x2029) || (c =? 0x202F) || (c =? 0x205F)
  || (c =? 0x3000).

(** The line boundaries of [str.splitlines()]. *)
Definition is_linebreak (c : codepoint) : bool :=
  ((0x0A <=? c) && (c <=? 0x0D)) || ((0x1C <=? c) && (c <=? 0x1E))
  || (c =? 0x85) || (c =? 0x2028) || (c =? 0x2029).

(** [s.splitlines()]: [cur] is the line being read.  A carriage return
    followed by a line feed is one boundary; a final boundary opens no
    empty last line. *)
Fixpoint splitlines_from (cur : str) (s : str) : list str :=
  match s with
  | [] => match cur with [] => [] | _ => [cur] end
  | c :: rest =>
      if is_linebreak c then
        cur :: match rest with
               | d :: rest' =>
                   if (c =? 0x0D) && (d =? 0x0A)
                   then splitlines_from [] rest'
                   else splitlines_from [] rest
               | [] => []
               end
      else splitlines_from (cur ++ [c]) rest
  end.

Definition splitlines (s : str) : list str := splitlines_from [] s.

(** [s.lstrip()], [s.rstrip()], [s.strip()]. *)
Fixpoint lstrip (s : str) : str :=
  match s with
  | c :: rest => if isspace c then lstrip rest else s
  | [] => []
  end.

Definition rstrip (s : str) : str := rev (lstrip (rev s)).

Definition strip (s : str) : str := rstrip (lstrip s).

(** [re.sub] with a pattern [[class]+]: every maximal run of characters of the
    class [p] is replaced by [repl]; [in_run] tells that the previous
    character belonged to the run being replaced. *)
Fixpoint re_sub_from (p : codepoint -> bool) (repl : str)
         (in_run : bool) (s : str) : str :=
  match s with
  | [] => []
  | c :: rest =>
      if p c
      then (if in_run then [] else repl) ++ re_sub_from p repl true rest
      else c :: re_sub_from p repl false rest
  end.

Definition re_sub (p : codepoint -> bool) (repl : str) (s : str) : str :=
  re_sub_from p repl false s.

(** [sep.join(parts)]. *)
Fixpoint join (sep : str) (parts : list str) : str :=
  match parts with
  | [] => []
  | [x] => x
  | x :: rest => x ++ sep ++ join sep rest
  end.

(** [a in b] on strings: [a] occurs in [b] as a contiguous slice. *)
Fixpoint startswith (b a : str) {struct a} : bool :=
  match a, b with
  | [], _ => true
  | x :: a', y :: b' => (x =? y) && startswith b' a'
  | _ :: _, [] => false
  end.

Fixpoint str_in (a b : str) : bool :=
  startswith b a ||
  match b with
  | [] => false
  | _ :: b' => str_in a b'
  end.

(** [x in l] on a list of strings. *)
Definition list_in (x : str) (l : list str) : bool :=
  existsb (str_eqb x) l.

(** [a < b] on strings: lexicographic on code points. *)
Fixpoint str_ltb (a b : str) {struct a} : bool :=
  match a, b with
  | _, [] => false
  | [], _ :: _ => true
  | x :: a', y :: b' => (x <? y) || ((x =? y) && str_ltb a' b')
  end.

(** [sorted(l, key=...)] is stable; [ltb] is [<] on the keys of two
    elements.  An element is put in front of the first element that is not
    smaller than it, so equal keys keep their order. *)
Section Sorting.
Variable A : Type.
Variable ltb : A -> A -> bool.

Fixpoint insert_sorted (x : A) (l : list A) : list A :=
  match l with
  | [] => [x]
  | y :: l' => if ltb y x then y :: insert_sorted x l' else x :: l
  end.

Fixpoint sorted (l : list A) : list A :=
  match l with
  | [] => []
  | x :: l' => insert_sorted x (sorted l')
  end.
End Sorting.

Arguments insert_sorted {A} ltb x l.
Arguments sorted {A} ltb l.

(** [set(l)]: the distinct elements of [l].  The iteration order of a
    Python set is unspecified; the program only counts the elements or
    adds one to a counter for each, which does not depend on it. *)
Definition set_of (l : list str) : list str := nodup str_eq_dec l.

(** A [dict] with string keys, in insertion order. *)
Definition dict (V : Type) := list (str * V).

Fixpoint dict_set {V : Type} (k : str) (v : V) (d : dict V) : dict V :=
  match d with
  | [] => [(k, v)]
  | (k', v') :: d' =>
      if str_eqb k k' then (k', v) :: d' else (k', v') :: dict_set k v d'
  end.

Fixpoint dict_get {V : Type} (k : str) (d : dict V) : option V :=
  match d with
  | [] => None
  | (k', v) :: d' => if str_eqb k k' then Some v else dict_get k d'
  end.

Definition keys {V : Type} (d : dict V) : list str := map fst d.

(** [collections.Counter]: a dict of counts; a missing key counts 0. *)
Definition Counter := dict nat.

Definition counter_get (k : str) (c : Counter) : nat :=
  match dict_get k c with Some n => n | None => 0%nat end.

(** [c[k] += 1]. *)
Definition counter_incr (k : str) (c : Counter) : Counter :=
  dict_set k (S (counter_get k c)) c.

End Py.

Import Py.

(* ===================================================================== *)
(** * The Unicode services used by the program                            *)
(* ===================================================================== *)

Record UnicodeDB := {
  nfkc : str -> str;             (* unicodedata.normalize, form NFKC *)
  lower : str -> str;            (* s.lower() *)
  isalnum : codepoint -> bool    (* Py_UNICODE_ISALNUM, behind \w *)
}.

(* ===================================================================== *)
(** * main.py                                                             *)
(* ===================================================================== *)

Local Open Scope N_scope.

(** [PUNCT_TRANSLATION]: sixteen CJK punctuation marks and their ASCII
    replacements. *)
Definition PUNCT_TRANSLATION : list (codepoint * codepoint) :=
  [ (0xFF0C, 0x2C)   (* fullwidth comma         -> , *)
  ; (0x3002, 0x2E)   (* ideographic full stop   -> . *)
  ; (0xFF1A, 0x3A)   (* fullwidth colon         -> : *)
  ; (0xFF1B, 0x3B)   (* fullwidth semicolon     -> ; *)
  ; (0xFF1F, 0x3F)   (* fullwidth question mark -> ? *)
  ; (0xFF01, 0x21)   (* fullwidth exclamation   -> ! *)
  ; (0xFF08, 0x28)   (* fullwidth left paren    -> ( *)
  ; (0xFF09, 0x29)   (* fullwidth right paren   -> ) *)
  ; (0x3010, 0x5B)   (* left lenticular bracket -> [ *)
  ; (0x3011, 0x5D)   (* right lenticular bracket-> ] *)
  ; (0x300A, 0x3C)   (* left double angle       -> < *)
  ; (0x300B, 0x3E)   (* right double angle      -> > *)
  ; (0x201C, 0x22)   (* left double quote       -> straight double *)
  ; (0x201D, 0x22)   (* right double quote      -> straight double *)
  ; (0x2018, 0x27)   (* left single quote       -> apostrophe *)
  ; (0x2019, 0x27)   (* right single quote      -> apostrophe *)
  ].

Fixpoint table_get (c : codepoint) (t : list (codepoint * codepoint))
  : option codepoint :=
  match t with
  | [] => None
  | (k, v) :: t' => if c =? k then Some v else table_get c t'
  end.

(** [text.translate(table)]: characters outside the table are kept. *)
Definition translate (t : list (codepoint * codepoint)) (text : str) : str :=
  map (fun c => match table_get c t with Some v => v | None => c end) text.

(** [load_keywords]: the argument is the content of keywords.txt, or
    [None] when the file does not exist ([FileNotFoundError]).  Reading
    in text mode turns every line ending into a line feed, which
    [splitlines] splits at as it does at the original ending. *)
Fixpoint stripped_lines (ls : list str) : list str :=
  match ls with
  | [] => []
  | line :: ls' =>
      let keyword := strip line in
      if is_empty keyword then stripped_lines ls'
      else keyword :: stripped_lines ls'
  end.

Definition load_keywords (file : option str) : option (list str) :=
  match file with
  | None => None
  | Some content => Some (stripped_lines (splitlines content))
  end.

Section Program.

Variable U : UnicodeDB.

(** The body of the loop of [clean_text] over the lines. *)
Fixpoint clean_lines (ls : list str) : list str :=
  match ls with
  | [] => []
  | line :: ls' =>
      let line := strip line in
      if is_empty line then clean_lines ls'
      else re_sub isspace [0x20] line :: clean_lines ls'
  end.

Definition clean_text (text : str) : str :=
  if is_empty text then []
  else
    let text := nfkc U text in
    let text := translate PUNCT_TRANSLATION text in
    let lines := clean_lines (splitlines text) in
    let cleaned := join [0x0A] lines in
    lower U cleaned.

(** The class [[\s\W]]: white space, or not a word character; a word
    character is alphanumeric or the underscore. *)
Definition is_word (c : codepoint) : bool := isalnum U c || (c =? 0x5F).

Definition space_or_nonword (c : codepoint) : bool :=
  isspace c || negb (is_word c).

Definition normalize_for_match (text : str) : str :=
  let text := nfkc U text in
  let text := translate PUNCT_TRANSLATION text in
  let text := lower U text in
  re_sub space_or_nonword [] text.

(** The condition of the [if] in the inner loop of [match_keywords];
    [a and b] on strings is false when [a] is empty. *)
Definition keyword_matches (text normalized_text : str)
           (keyword normalized_keyword : str) : bool :=
  str_in (lower U keyword) text
  || (negb (is_empty normalized_keyword)
      && str_in normalized_keyword normalized_text).

(** The inner loop of [match_keywords]: the list [found] of one document. *)
Fixpoint scan_keywords (text normalized_text : str)
         (normalized_keywords : list (str * str)) : list str :=
  match normalized_keywords with
  | [] => []
  | (keyword, normalized_keyword) :: rest =>
      if keyword_matches text normalized_text keyword normalized_keyword
      then keyword :: scan_keywords text normalized_text rest
      else scan_keywords text normalized_text rest
  end.

Definition normalized_keywords_of (keywords : list str) : list (str * str) :=
  map (fun kw => (kw, normalize_for_match kw)) keywords.

(** [found] for one cleaned document. *)
Definition found_in (keywords : list str) (text : str) : list str :=
  scan_keywords text (normalize_for_match text)
                (normalized_keywords_of keywords).

(** [match_keywords]: [keywords] is the result of [load_keywords()], and
    [files] the cleaned files as (stem, content) in the order of
    [sorted(CLEANED_DIR.glob(...))]. *)
Fixpoint match_files (keywords : list str) (files : list (str * str))
         (matches_by_teacher : dict (list str)) : dict (list str) :=
  match files with
  | [] => matches_by_teacher
  | (stem, text) :: rest =>
      match_files keywords rest
                  (dict_set stem (found_in keywords text) matches_by_teacher)
  end.

Definition match_keywords (keywords : list str) (files : list (str * str))
  : dict (list str) :=
  match_files keywords files [].

End Program.

(** ** The aggregator *)

(** [for matches in d.values(): for keyword in set(matches):
      counts[keyword] += 1]. *)
Fixpoint count_hits (items : dict (list str)) (counts : Counter) : Counter :=
  match items with
  | [] => counts
  | (_, matches) :: rest =>
      count_hits rest
        (fold_left (fun c keyword => counter_incr keyword c)
                   (set_of matches) counts)
  end.

(** [<] on the sort keys [(-count, name)] of two items [(name, count)]. *)
Definition rank_ltb (a b : str * nat) : bool :=
  (snd b <? snd a)%nat || ((snd a =? snd b)%nat && str_ltb (fst a) (fst b)).

(** The f-string [{name}: {count}]. *)
Definition fmt_count (item : str * nat) : str :=
  fst item ++ lit ": " ++ str_of_nat (snd item).

(** The literals of the report: the mark for "none" (无), the three
    headers ([关键词命中统计], [命中关键词最多的教师 Top3],
    [未命中任何关键词的教师]) and the line for "no matching subject"
    (无匹配教师). *)
Definition NONE_MARK : str := [0x65E0].
Definition HEADER_KEYWORDS : str :=
  [0x5B; 0x5173; 0x952E; 0x8BCD; 0x547D; 0x4E2D; 0x7EDF; 0x8BA1; 0x5D].
Definition HEADER_TOP3 : str :=
  [0x5B; 0x547D; 0x4E2D; 0x5173; 0x952E; 0x8BCD; 0x6700; 0x591A; 0x7684;
   0x6559; 0x5E08; 0x20; 0x54; 0x6F; 0x70; 0x33; 0x5D].
Definition HEADER_NO_MATCH : str :=
  [0x5B; 0x672A; 0x547D; 0x4E2D; 0x4EFB; 0x4F55; 0x5173; 0x952E; 0x8BCD;
   0x7684; 0x6559; 0x5E08; 0x5D].
Definition NO_TEACHER : str :=
  [0x65E0; 0x5339; 0x914D; 0x6559; 0x5E08].

(** The local variables of [build_summary]. *)
Definition teacher_counts (matches_by_teacher : dict (list str))
  : dict nat :=
  map (fun item => (fst item, List.length (set_of (snd item))))
      matches_by_teacher.

Definition top_teachers (matches_by_teacher : dict (list str))
  : list (str * nat) :=
  firstn 3 (sorted rank_ltb (teacher_counts matches_by_teacher)).

Definition no_match (matches_by_teacher : dict (list str)) : list str :=
  sorted str_ltb
    (map fst (filter (fun item => (snd item =? 0)%nat)
                     (teacher_counts matches_by_teacher))).

(** The lines of the three sections, without their headers. *)
Definition keyword_lines (keywords : list str)
           (matches_by_teacher : dict (list str)) : list str :=
  let keyword_counts := count_hits matches_by_teacher [] in
  map (fun keyword => fmt_count (keyword, counter_get keyword keyword_counts))
      keywords.

Definition top_lines (matches_by_teacher : dict (list str)) : list str :=
  match top_teachers matches_by_teacher with
  | [] => [NONE_MARK]
  | top => map fmt_count top
  end.

Definition no_match_lines (matches_by_teacher : dict (list str))
  : list str :=
  match no_match matches_by_teacher with
  | [] => [NONE_MARK]
  | l => l
  end.

Definition summary_lines (keywords : list str)
           (matches_by_teacher : dict (list str)) : list str :=
  [HEADER_KEYWORDS] ++ keyword_lines keywords matches_by_teacher
  ++ [[]] ++ [HEADER_TOP3] ++ top_lines matches_by_teacher
  ++ [[]] ++ [HEADER_NO_MATCH] ++ no_match_lines matches_by_teacher.

(** [build_summary]; [keywords] is the result of [load_keywords()]. *)
Definition build_summary (keywords : list str)
           (matches_by_teacher : dict (list str)) : str :=
  join [0x0A] (summary_lines keywords matches_by_teacher) ++ [0x0A].

(** [list_keywords]: the printed lines.  [ordered] is computed before the
    loop that gives the unmatched keywords of the list a zero count. *)
Fixpoint fill_zero (keywords : list str) (counts : Counter) : Counter :=
  match keywords with
  | [] => counts
  | keyword :: rest =>
      fill_zero rest
        (if list_in keyword (keys counts) then counts
         else dict_set keyword 0%nat counts)
  end.

Definition list_keywords (keywords : list str)
           (matches_by_teacher : dict (list str)) : list str :=
  let counts := count_hits matches_by_teacher [] in
  let ordered := sorted rank_ltb counts in
  let counts := fill_zero keywords counts in
  let ordered :=
    match ordered with
    | [] => map (fun keyword => (keyword, counter_get keyword counts)) keywords
    | _ => ordered
    end in
  map fmt_count ordered.

(** [search_keyword]: the printed lines. *)
Definition matching_teachers (keyword : str)
           (matches_by_teacher : dict (list str)) : list str :=
  sorted str_ltb
    (map fst (filter (fun item => list_in keyword (snd item))
                     matches_by_teacher)).

Definition search_keyword (keyword : str)
           (matches_by_teacher : dict (list str)) : list str :=
  match matching_teachers keyword matches_by_teacher with
  | [] => [NO_TEACHER]
  | teachers => teachers
  end.

(* ===================================================================== *)
(** * Notions used to state the properties                                *)
(* ===================================================================== *)

(** [a] occurs in [b] as a literal substring. *)
Definition substring (a b : str) : Prop :=
  exists p q, b = p ++ a ++ q.

(** [a <= b] on strings. *)
Definition str_le (a b : str) : Prop := str_ltb b a = false.

Definition all_space (s : str) : bool := forallb isspace s.

(** Rule (b) of the matcher, on its own: the fold key of [k] is not empty
    and occurs in the fold key of [t]. *)
Definition fold_matches (U : UnicodeDB) (k t : str) : bool :=
  negb (is_empty (normalize_for_match U k))
  && str_in (normalize_for_match U k) (normalize_for_match U t).

(** The text as the fold key sees it before the characters are dropped:
    normalised, translated, in lower case. *)
Definition folded_text (U : UnicodeDB) (t : str) : str :=
  lower U (translate PUNCT_TRANSLATION (nfkc U t)).

(** [t'] is [t] with runs of white space put between two characters that
    follow each other in [t]. *)
Inductive ws_between : str -> str -> Prop :=
| ws_between_nil : ws_between [] []
| ws_between_last c : ws_between [c] [c]
| ws_between_cons c w t t' :
    all_space w = true -> t <> [] -> ws_between t t' ->
    ws_between (c :: t) (c :: w ++ t').

(** [t'] is [t] with white space characters added anywhere. *)
Inductive ws_added : str -> str -> Prop :=
| ws_added_nil : ws_added [] []
| ws_added_keep c t t' : ws_added t t' -> ws_added (c :: t) (c :: t')
| ws_added_space c t t' :
    isspace c = true -> ws_added t t' -> ws_added t (c :: t').

(** A text given as its pieces: a first piece [p] and, for every place
    where it is cut, the run [fst wq] to put in there and the piece
    [snd wq] that follows.  [pieces_text] is the text itself,
    [spaced_text] the text with the runs put in, [space_runs] says that
    every run is white space and not empty. *)
Definition pieces_text (p : str) (rest : list (str * str)) : str :=
  p ++ flat_map (fun wq => snd wq) rest.

Definition spaced_text (p : str) (rest : list (str * str)) : str :=
  p ++ flat_map (fun wq => fst wq ++ snd wq) rest.

Definition space_runs (rest : list (str * str)) : bool :=
  forallb (fun wq => negb (is_empty (fst wq)) && all_space (fst wq)) rest.

(** The text splits at its cuts: normalising, translating and lowering
    it is doing so piece by piece (no combining sequence, no composition
    and no casing context reaches across a cut). *)
Definition splits_at (U : UnicodeDB) (p : str) (rest : list (str * str))
  : Prop :=
  folded_text U (pieces_text p rest) =
  folded_text U p ++ flat_map (fun wq => folded_text U (snd wq)) rest.

(** The character is no key of the punctuation table. *)
Definition untranslated (c : codepoint) : Prop :=
  table_get c PUNCT_TRANSLATION = None.

Definition is_untranslated (c : codepoint) : bool :=
  match table_get c PUNCT_TRANSLATION with Some _ => false | None => true end.

(** The three subjects of the top-3 scenario. *)
Definition JIA : str := [0x7532].    (* 甲 *)
Definition YI : str := [0x4E59].     (* 乙 *)
Definition BING : str := [0x4E19].   (* 丙 *)

(** ** What the program relies on from the Unicode database

    [str.lower()] maps the characters one by one, except for the Greek
    capital sigma, whose image depends on the cased letters around it; the
    context never reaches across white space.  So: lowering happens apart
    on both sides of a white space character, which is kept; it makes
    neither white space nor the empty string nor a character of the
    punctuation table out of other characters; and lowering twice is
    lowering once. *)
Record case_laws (U : UnicodeDB) : Prop := {
  lower_nil : lower U [] = [];
  lower_split :
    forall a c b, isspace c = true ->
      lower U (a ++ c :: b) = lower U a ++ c :: lower U b;
  lower_word :
    forall w, w <> [] -> Forall (fun c => isspace c = false) w ->
      lower U w <> [] /\ Forall (fun c => isspace c = false) (lower U w);
  lower_untranslated :
    forall s, Forall untranslated s -> Forall untranslated (lower U s);
  lower_idem : forall s, lower U (lower U s) = lower U s
}.

Arguments lower_nil {U} _.
Arguments lower_split {U} _ a c b _.
Arguments lower_word {U} _ w _ _.
Arguments lower_untranslated {U} _ s _.
Arguments lower_idem {U} _ s.

(** NFKC maps white space to white space (the no-break and typographic
    spaces become U+0020, the others are kept). *)
Definition nfkc_keeps_space (U : UnicodeDB) : Prop :=
  forall s, all_space s = true -> all_space (nfkc U s) = true.

(** White space is a barrier for NFKC: a white space character is a
    starter that takes part in no composition, so the text before it and
    the text after it are normalised apart, and the character itself
    becomes white space. *)
Record nfkc_laws (U : UnicodeDB) : Prop := {
  nfkc_nil : nfkc U [] = [];
  nfkc_space :
    forall c, isspace c = true ->
      nfkc U [c] <> [] /\ all_space (nfkc U [c]) = true;
  nfkc_barrier :
    forall a c b, isspace c = true ->
      nfkc U (a ++ c :: b) = nfkc U a ++ nfkc U [c] ++ nfkc U b
}.

Arguments nfkc_nil {U} _.
Arguments nfkc_space {U} _ c _.
Arguments nfkc_barrier {U} _ a c b _.

(** ** Lines, words and tidy lines *)

(** What [splitlines_from] goes on with after a line boundary [c]. *)
Definition after_break (c : codepoint) (rest : str) : str :=
  match rest with
  | d :: rest' => if (c =? 0x0D) && (d =? 0x0A) then rest' else rest
  | [] => []
  end.

(** A string read as fields between its white space characters: the
    first field, then each white space character with the field after
    it. *)
Fixpoint parse (s : str) : str * list (codepoint * str) :=
  match s with
  | [] => ([], [])
  | c :: rest =>
      let (f, fs) := parse rest in
      if isspace c then ([], (c, f) :: fs) else (c :: f, fs)
  end.

Definition unparse (f : str) (fs : list (codepoint * str)) : str :=
  f ++ flat_map (fun cf => fst cf :: snd cf) fs.

(** Every field is introduced by a white space character. *)
Definition separated (fs : list (codepoint * str)) : Prop :=
  Forall (fun cf => isspace (fst cf) = true) fs.

Definition nonempty (l : list str) : list str :=
  filter (fun w => negb (is_empty w)) l.

(** The words of a string: its fields that are not empty. *)
Definition words (s : str) : list str :=
  nonempty (fst (parse s) :: map snd (snd (parse s))).

Definition word (w : str) : Prop :=
  w <> [] /\ Forall (fun c => isspace c = false) w.

(** The last character is not white space. *)
Definition ends_word (s : str) : Prop :=
  exists s' c, s = s' ++ [c] /\ isspace c = false.

(** The first character, if any, is white space. *)
Definition starts_space (s : str) : bool :=
  match s with c :: _ => isspace c | [] => false end.

(** A line as [clean_text] leaves it: words with one U+0020 between. *)
Inductive tidy : str -> Prop :=
| tidy_one w : word w -> tidy w
| tidy_more w l : word w -> tidy l -> tidy (w ++ 0x20 :: l).

(** ** Notions for the aggregator and the lines *)

(** [a] ranks no later than [b]: its sort key is not greater. *)
Definition rank_le (a b : str * nat) : Prop := rank_ltb b a = false.

(** The number of subjects whose matched list holds the keyword. *)
Definition subjects_with (k : str) (m : dict (list str)) : nat :=
  List.length (filter (fun item => list_in k (snd item)) m).

(** The line has a character that is not white space. *)
Definition has_words (l : str) : bool :=
  match words l with [] => false | _ => true end.

Definition no_linebreak (s : str) : Prop :=
  Forall (fun c => is_linebreak c = false) s.

(** ** Running through the code points *)

(** [P] holds for the [fuel] code points from [c] on. *)
Fixpoint check_from (P : codepoint -> bool) (fuel : nat) (c : codepoint)
  : bool :=
  match fuel with
  | O => true
  | S fuel' => P c && check_from P fuel' (N.succ c)
  end.

(* ===================================================================== *)
(** * A fragment of the Unicode character database                        *)
(* ===================================================================== *)

(** The tables of the character database restricted to the alphabet

    - U+0000..U+007F (ASCII), the white space characters of [isspace];
    - U+0331 COMBINING MACRON BELOW, U+0338 COMBINING LONG SOLIDUS OVERLAY
      and the twenty characters composed of an ASCII character and one of
      them (B D K L N R T Z b d h k l n r t z with line below; the
      negated signs U+2260, U+226E, U+226F);
    - the quotation marks U+2018, U+2019, U+201C, U+201D and the CJK
      punctuation U+3002, U+300A, U+300B, U+3010, U+3011;
    - the ideographs U+4E00..U+9FA5; the fullwidth forms U+FF01..U+FF5E

    with the normalisation algorithm of Unicode Standard Annex 15 on top.
    The alphabet is closed under decomposition, composition and lowering,
    and on strings over it [db] computes what CPython computes.  It is
    used to run the program on concrete inputs; the general theorems do
    not depend on it. *)
Module Ucd.

(** Characters with a canonical decomposition: composite, base, mark. *)
Definition composites : list (codepoint * (codepoint * codepoint)) :=
  [ (0x1E06, (0x42, 0x331)); (0x1E07, (0x62, 0x331))
  ; (0x1E0E, (0x44, 0x331)); (0x1E0F, (0x64, 0x331))
  ; (0x1E34, (0x4B, 0x331)); (0x1E35, (0x6B, 0x331))
  ; (0x1E3A, (0x4C, 0x331)); (0x1E3B, (0x6C, 0x331))
  ; (0x1E48, (0x4E, 0x331)); (0x1E49, (0x6E, 0x331))
  ; (0x1E5E, (0x52, 0x331)); (0x1E5F, (0x72, 0x331))
  ; (0x1E6E, (0x54, 0x331)); (0x1E6F, (0x74, 0x331))
  ; (0x1E94, (0x5A, 0x331)); (0x1E95, (0x7A, 0x331))
  ; (0x1E96, (0x68, 0x331))
  ; (0x2260, (0x3D, 0x338)); (0x226E, (0x3C, 0x338))
  ; (0x226F, (0x3E, 0x338)) ].

Fixpoint decompose_in (t : list (codepoint * (codepoint * codepoint)))
         (c : codepoint) : option (codepoint * codepoint) :=
  match t with
  | [] => None
  | (k, bm) :: t' => if c =? k then Some bm else decompose_in t' c
  end.

Fixpoint compose_in (t : list (codepoint * (codepoint * codepoint)))
         (b m : codepoint) : option codepoint :=
  match t with
  | [] => None
  | (k, (b', m')) :: t' =>
      if (b =? b') && (m =? m') then Some k else compose_in t' b m
  end.

(** Characters whose compatibility decomposition is U+0020. *)
Definition space_variant (c : codepoint) : bool :=
  (c =? 0xA0) || ((0x2000 <=? c) && (c <=? 0x200A))
  || (c =? 0x202F) || (c =? 0x205F) || (c =? 0x3000).

Definition fullwidth (c : codepoint) : bool :=
  (0xFF01 <=? c) && (c <=? 0xFF5E).

(** Full compatibility decomposition of one character. *)
Definition decomposition (c : codepoint) : str :=
  if fullwidth c then [c - 0xFEE0]
  else if space_variant c then [0x20]
  else match decompose_in composites c with
       | Some (b, m) => [b; m]
       | None => [c]
       end.

(** Canonical combining class. *)
Definition ccc (c : codepoint) : N :=
  if c =? 0x331 then 220 else if c =? 0x338 then 1 else 0.

(** Canonical ordering: a mark moves in front of the marks of higher
    class that precede it; a starter (class 0) is never passed. *)
Fixpoint insert_mark (c : codepoint) (s : str) : str :=
  match s with
  | d :: s' =>
      if negb (ccc d =? 0) && (ccc d <? ccc c)
      then d :: insert_mark c s'
      else c :: s
  | [] => [c]
  end.

Fixpoint reorder (s : str) : str :=
  match s with
  | [] => []
  | c :: rest =>
      if ccc c =? 0 then c :: reorder rest else insert_mark c (reorder rest)
  end.

(** Canonical composition: [st] is the last starter, [pending] the marks
    kept after it.  A character combines with the starter when the pair
    has a composite and no kept mark of the same or a higher class stands
    between them. *)
Definition blocked (pending : str) (c : codepoint) : bool :=
  match rev pending with
  | [] => false
  | m :: _ => ccc c <=? ccc m
  end.

Definition flush (st : option codepoint) (pending : str) : str :=
  match st with Some b => b :: pending | None => pending end.

Fixpoint compose_from (st : option codepoint) (pending : str) (s : str)
  : str :=
  match s with
  | [] => flush st pending
  | c :: rest =>
      let composite :=
        match st with
        | Some b =>
            if blocked pending c then None else compose_in composites b c
        | None => None
        end in
      match composite with
      | Some p => compose_from (Some p) pending rest
      | None =>
          if ccc c =? 0
          then flush st pending ++ compose_from (Some c) [] rest
          else compose_from st (pending ++ [c]) rest
      end
  end.

Definition normalize_nfkc (s : str) : str :=
  compose_from None [] (reorder (flat_map decomposition s)).

(** Simple lower case mapping; none of the characters has a longer one. *)
Definition capitals_line_below : list codepoint :=
  [0x1E06; 0x1E0E; 0x1E34; 0x1E3A; 0x1E48; 0x1E5E; 0x1E6E; 0x1E94].

Definition lower_char (c : codepoint) : codepoint :=
  if ((0x41 <=? c) && (c <=? 0x5A)) || ((0xFF21 <=? c) && (c <=? 0xFF3A))
  then c + 0x20
  else if existsb (N.eqb c) capitals_line_below then c + 1
  else c.

Definition alnum_char (c : codepoint) : bool :=
  ((0x30 <=? c) && (c <=? 0x39)) || ((0x41 <=? c) && (c <=? 0x5A))
  || ((0x61 <=? c) && (c <=? 0x7A))
  || (match decompose_in composites c with
      | Some (_, m) => m =? 0x331
      | None => false
      end)
  || ((0x4E00 <=? c) && (c <=? 0x9FA5))
  || ((0xFF10 <=? c) && (c <=? 0xFF19))
  || ((0xFF21 <=? c) && (c <=? 0xFF3A))
  || ((0xFF41 <=? c) && (c <=? 0xFF5A)).

Definition db : UnicodeDB :=
  {| nfkc := normalize_nfkc;
     lower := map lower_char;
     isalnum := alnum_char |}.

End Ucd.

(* ===================================================================== *)
(** * spider_thu_cs.py                                                    *)
(* ===================================================================== *)

(** The parts of the crawler that work on text.  The network
    ([fetch_html], [crawl_to_data]) and the HTML parser are left out: the
    functions below start from what [BeautifulSoup] hands over. *)

(** [text.replace(old, new)] for two strings of one character. *)
Definition replace_char (old new : codepoint) (s : str) : str :=
  map (fun c => if c =? old then new else c) s.

(** The class of [_safe_filename]: backslash, slash, colon, asterisk,
    question mark, double quote, angle brackets, vertical bar. *)
Definition forbidden (c : codepoint) : bool :=
  (c =? 0x5C) || (c =? 0x2F) || (c =? 0x3A) || (c =? 0x2A) || (c =? 0x3F)
  || (c =? 0x22) || (c =? 0x3C) || (c =? 0x3E) || (c =? 0x7C).

Definition _safe_filename (name : str) : str :=
  let name := strip name in
  re_sub forbidden [0x5F] name.

Definition _clean_lines (text : str) : list str :=
  let text := replace_char 0xA0 0x20 text in
  let lines :=
    map (fun x => strip (re_sub isspace [0x20] x)) (splitlines text) in
  filter (fun x => negb (is_empty x)) lines.

(** ** [parse_teacher_links]

    [anchors] holds, for every [a] element of the page in document order,
    its text [a.get_text(strip=True)] and its attribute
    [a.get(href, empty).strip()]; [urljoin] is [urllib.parse.urljoin]. *)
Definition BASE : str := lit "https://www.cs.tsinghua.edu.cn/".

(** A character of the class of the name pattern: U+4E00..U+9FFF or the
    middle dot. *)
Definition is_name_char (c : codepoint) : bool :=
  ((0x4E00 <=? c) && (c <=? 0x9FFF)) || (c =? 0xB7).

(** [re.fullmatch] of the name pattern: two to ten characters of the
    class. *)
Definition name_matches (name : str) : bool :=
  (2 <=? List.length name)%nat && (List.length name <=? 10)%nat
  && forallb is_name_char name.

Definition pair_eqb (a b : str * str) : bool :=
  str_eqb (fst a) (fst b) && str_eqb (snd a) (snd b).

Section Links.

Variable urljoin : str -> str -> str.

(** The loop over the anchors. *)
Fixpoint link_pairs (anchors : list (str * str)) : list (str * str) :=
  match anchors with
  | [] => []
  | (name, href) :: rest =>
      if is_empty name then link_pairs rest
      else if is_empty href then link_pairs rest
      else if negb (str_in (lit "/info/") href) then link_pairs rest
      else if negb (name_matches name) then link_pairs rest
      else (name, urljoin BASE href) :: link_pairs rest
  end.

(** The loop that drops the pairs already seen. *)
Fixpoint unique_pairs (pairs seen : list (str * str)) : list (str * str) :=
  match pairs with
  | [] => []
  | key :: rest =>
      if existsb (pair_eqb key) seen then unique_pairs rest seen
      else key :: unique_pairs rest (key :: seen)
  end.

Definition parse_teacher_links (anchors : list (str * str))
  : list (str * str) :=
  unique_pairs (link_pairs anchors) [].

End Links.

(** ** [extract_research_text]

    The argument is the text of the page, [soup.get_text] with a line
    feed as separator. *)
Definition TARGET_TITLES : list str :=
  [ [0x7814; 0x7A76; 0x9886; 0x57DF]   (* 研究领域 *)
  ; [0x7814; 0x7A76; 0x65B9; 0x5411]   (* 研究方向 *)
  ; [0x7814; 0x7A76; 0x6982; 0x51B5]   (* 研究概况 *)
  ].

Definition STOP_TITLES : list str :=
  [ [0x6559; 0x80B2; 0x80CC; 0x666F]   (* 教育背景 *)
  ; [0x5DE5; 0x4F5C; 0x7ECF; 0x5386]   (* 工作经历 *)
  ; [0x793E; 0x4F1A; 0x517C; 0x804C]   (* 社会兼职 *)
  ; [0x5B66; 0x672F; 0x517C; 0x804C]   (* 学术兼职 *)
  ; [0x5956; 0x52B1; 0x4E0E; 0x8363; 0x8A89]   (* 奖励与荣誉 *)
  ; [0x8363; 0x8A89; 0x5956; 0x52B1]   (* 荣誉奖励 *)
  ; [0x5B66; 0x672F; 0x6210; 0x679C]   (* 学术成果 *)
  ; [0x79D1; 0x7814; 0x9879; 0x76EE]   (* 科研项目 *)
  ; [0x4EE3; 0x8868; 0x6027; 0x8BBA; 0x6587]   (* 代表性论文 *)
  ; [0x4EE3; 0x8868; 0x8BBA; 0x6587]   (* 代表论文 *)
  ; [0x51FA; 0x7248; 0x7269]   (* 出版物 *)
  ; [0x4E13; 0x5229]   (* 专利 *)
  ; [0x62DB; 0x751F; 0x4FE1; 0x606F]   (* 招生信息 *)
  ; [0x6559; 0x5B66]   (* 教学 *)
  ; [0x8BFE; 0x7A0B]   (* 课程 *)
  ; [0x8054; 0x7CFB; 0x65B9; 0x5F0F]   (* 联系方式 *)
  ; [0x90AE; 0x7BB1]   (* 邮箱 *)
  ; [0x7535; 0x8BDD]   (* 电话 *)
  ; [0x4E0A; 0x4E00; 0x7BC7]   (* 上一篇 *)
  ; [0x4E0B; 0x4E00; 0x7BC7]   (* 下一篇 *)
  ; [0x5173; 0x95ED]   (* 关闭 *)
  ].

Definition HOME : str := [0x9996; 0x9875].   (* 首页 *)
Definition DEPARTMENT : str :=               (* 清华大学计算机科学与技术系 *)
  [0x6E05; 0x534E; 0x5927; 0x5B66; 0x8BA1; 0x7B97; 0x673A; 0x79D1; 0x5B66;
   0x4E0E; 0x6280; 0x672F; 0x7CFB].

Definition is_colon (c : codepoint) : bool := (c =? 0xFF1A) || (c =? 0x3A).

(** [re.sub] of a colon, fullwidth or not, with the white space after it,
    at the end of the string, by nothing: the string is cut at the first
    colon that only white space follows. *)
Fixpoint sub_trailing_colon (s : str) : str :=
  match s with
  | [] => []
  | c :: rest =>
      if is_colon c && forallb isspace rest then []
      else c :: sub_trailing_colon rest
  end.

Definition is_noise (nxt_norm : str) : bool :=
  startswith nxt_norm HOME || str_in DEPARTMENT nxt_norm.

(** [for x in buf: if x not in content: content.append(x)]. *)
Fixpoint merge_lines (buf content : list str) : list str :=
  match buf with
  | [] => content
  | x :: buf' =>
      merge_lines buf' (if list_in x content then content else content ++ [x])
  end.

(** [sections[title]]; the titles looked up are keys of the dict. *)
Definition section_get (title : str) (sections : dict (list str))
  : list str :=
  match dict_get title sections with Some l => l | None => [] end.

Definition store (title : str) (buf : list str)
           (sections : dict (list str)) : dict (list str) :=
  dict_set title (merge_lines buf (section_get title sections)) sections.

(** The two nested [while] loops: [lines] is what is left from index [i]
    on.  The inner loop reads the lines after a target title up to the
    next title; that title is looked at again by the outer loop. *)
Fixpoint scan_sections (lines : list str) (sections : dict (list str))
         {struct lines} : dict (list str) :=
  match lines with
  | [] => sections
  | line :: rest =>
      let normalized := sub_trailing_colon line in
      if list_in normalized (keys sections) then
        (fix inner (ls : list str) (buf : list str) {struct ls}
           : dict (list str) :=
           match ls with
           | [] => store normalized buf sections
           | nxt :: ls' =>
               let nxt_norm := sub_trailing_colon nxt in
               if list_in nxt_norm STOP_TITLES
                  || list_in nxt_norm TARGET_TITLES
               then scan_sections ls (store normalized buf sections)
               else if is_noise nxt_norm then inner ls' buf
               else inner ls' (buf ++ [nxt])
           end) rest []
      else scan_sections rest sections
  end.

(** The inner loop of [scan_sections] on its own: [scan_sections] on a
    target title goes on as [inner_loop] on the lines after it. *)
Section InnerLoop.

Variable normalized : str.
Variable sections : dict (list str).

Fixpoint inner_loop (ls : list str) (buf : list str) {struct ls}
  : dict (list str) :=
  match ls with
  | [] => store normalized buf sections
  | nxt :: ls' =>
      let nxt_norm := sub_trailing_colon nxt in
      if list_in nxt_norm STOP_TITLES || list_in nxt_norm TARGET_TITLES
      then scan_sections ls (store normalized buf sections)
      else if is_noise nxt_norm then inner_loop ls' buf
      else inner_loop ls' (buf ++ [nxt])
  end.

End InnerLoop.

(** A line that the inner loop takes into a section: no title, with or
    without a colon at its end, and no noise. *)
Definition content_line (l : str) : bool :=
  let norm := sub_trailing_colon l in
  negb (list_in norm STOP_TITLES) && negb (list_in norm TARGET_TITLES)
  && negb (is_noise norm).

(** The loop that puts the output together. *)
Fixpoint out_parts_of (titles : list str) (sections : dict (list str))
  : list str :=
  match titles with
  | [] => []
  | t :: titles' =>
      let content := section_get t sections in
      match content with
      | [] => out_parts_of titles' sections
      | _ => [t] ++ content ++ [[]] ++ out_parts_of titles' sections
      end
  end.

Definition extract_research_text (raw_text : str) : str :=
  let lines := _clean_lines raw_text in
  let sections := map (fun t => (t, @nil str)) TARGET_TITLES in
  let sections := scan_sections lines sections in
  let out_parts := out_parts_of TARGET_TITLES sections in
  let result := strip (join [0x0A] out_parts) in
  if (List.length result <? 10)%nat then [] else result.

(* ===================================================================== *)
(** * Facts about the built-ins                                           *)
(* ===================================================================== *)

Lemma str_eqb_eq (a b : str) : str_eqb a b = true <-> a = b.
Proof.
  unfold str_eqb. destruct (str_eq_dec a b); split; congruence.
Qed.

Lemma list_in_In (x : str) (l : list str) : list_in x l = true <-> In x l.
Proof.
  unfold list_in. rewrite existsb_exists. split.
  - intros [y [Hy He]]. apply str_eqb_eq in He. now subst.
  - intros H. exists x. split; [assumption | now apply str_eqb_eq].
Qed.

Lemma is_empty_true (s : str) : is_empty s = true <-> s = [].
Proof. destruct s; simpl; split; congruence. Qed.

Lemma is_empty_false (s : str) : is_empty s = false <-> s <> [].
Proof. destruct s; simpl; split; congruence. Qed.

(** ** Substrings *)

Lemma startswith_spec (a b : str) :
  startswith b a = true <-> exists q, b = a ++ q.
Proof.
  revert b. induction a as [|x a IH]; intros b; simpl.
  - split; [intros _; now exists b | reflexivity].
  - destruct b as [|y b].
    + split; [discriminate | intros [q Hq]; discriminate].
    + rewrite andb_true_iff, N.eqb_eq, IH. split.
      * intros [-> [q ->]]. now exists q.
      * intros [q Hq]. injection Hq as -> ->.
        split; [reflexivity | now exists q].
Qed.

Lemma str_in_spec (a b : str) : str_in a b = true <-> substring a b.
Proof.
  unfold substring. induction b as [|y b IH].
  - simpl. rewrite orb_false_r, startswith_spec. split.
    + intros [q Hq]. now exists [], q.
    + intros [p [q Hq]]. destruct p; [now exists q | discriminate].
  - simpl. rewrite orb_true_iff, startswith_spec, IH. split.
    + intros [[q Hq] | [p [q Hq]]].
      * now exists [], q.
      * exists (y :: p), q. simpl. now rewrite Hq.
    + intros [p [q Hq]]. destruct p as [|z p].
      * left. now exists q.
      * right. injection Hq as _ Hq. now exists p, q.
Qed.

(** ** The order on strings and [sorted] *)

Lemma str_ltb_asym (a b : str) : str_ltb a b = true -> str_ltb b a = false.
Proof.
  revert b. induction a as [|x a IH]; intros [|y b]; simpl; try congruence.
  intros H. apply orb_true_iff in H.
  destruct (N.ltb_spec y x), (N.ltb_spec x y), (N.eqb_spec x y),
    (N.eqb_spec y x); simpl in *; try lia;
    destruct H as [H | H]; try discriminate; auto.
Qed.

Lemma str_le_trans (a b c : str) : str_le a b -> str_le b c -> str_le a c.
Proof.
  unfold str_le. revert b c.
  induction a as [|x a IH]; intros [|y b] [|z c]; simpl; try congruence.
  intros H1 H2.
  apply orb_false_iff in H1. apply orb_false_iff in H2.
  destruct H1 as [H1 H1'], H2 as [H2 H2'].
  destruct (N.ltb_spec y x), (N.ltb_spec z y), (N.ltb_spec z x);
    try discriminate; try lia; simpl.
  destruct (N.eqb_spec z x); simpl; [|reflexivity].
  subst z. assert (y = x) by lia. subst y.
  rewrite N.eqb_refl in H1', H2'. simpl in *. eauto.
Qed.

Section SortedFacts.
Variable A : Type.
Variable ltb : A -> A -> bool.

Lemma insert_sorted_perm (x : A) (l : list A) :
  Permutation (x :: l) (insert_sorted ltb x l).
Proof.
  induction l as [|y l IH]; simpl; [reflexivity|].
  destruct (ltb y x); [|reflexivity].
  rewrite perm_swap. now apply perm_skip.
Qed.

Lemma sorted_perm (l : list A) : Permutation l (sorted ltb l).
Proof.
  induction l as [|x l IH]; simpl; [reflexivity|].
  rewrite <- insert_sorted_perm. now apply perm_skip.
Qed.

Lemma sorted_nil (l : list A) : sorted ltb l = [] -> l = [].
Proof.
  intros E. pose proof (sorted_perm l) as P. rewrite E in P.
  apply Permutation_sym in P. now apply Permutation_nil.
Qed.

Hypothesis ltb_asym : forall a b, ltb a b = true -> ltb b a = false.

Let le (a b : A) : Prop := ltb b a = false.

Lemma insert_sorted_Sorted (x : A) (l : list A) :
  Sorted le l -> Sorted le (insert_sorted ltb x l).
Proof.
  induction l as [|y l IH]; simpl; intros Hs.
  - repeat constructor.
  - destruct (ltb y x) eqn:E.
    + inversion Hs as [|? ? Hs' Hd]; subst. constructor; [auto|].
      destruct l as [|z l]; simpl.
      * constructor. now apply ltb_asym.
      * destruct (ltb z x) eqn:E'.
        -- inversion Hd; subst. now constructor.
        -- constructor. now apply ltb_asym.
    + constructor; [assumption|]. constructor. exact E.
Qed.

Lemma sorted_Sorted (l : list A) : Sorted le (sorted ltb l).
Proof.
  induction l as [|x l IH]; simpl; [constructor|].
  now apply insert_sorted_Sorted.
Qed.
End SortedFacts.

Arguments sorted_perm {A} ltb l.
Arguments sorted_nil {A} ltb l _.
Arguments sorted_Sorted {A} ltb _ l.

Lemma sorted_str_StronglySorted (l : list str) :
  StronglySorted str_le (sorted str_ltb l).
Proof.
  apply Sorted_StronglySorted.
  - intros a b c. apply str_le_trans.
  - apply sorted_Sorted. exact str_ltb_asym.
Qed.

(** ** Dicts and counters *)

Lemma str_eqb_refl (a : str) : str_eqb a a = true.
Proof. now apply str_eqb_eq. Qed.

Lemma str_eqb_neq (a b : str) : a <> b -> str_eqb a b = false.
Proof.
  intros H. destruct (str_eqb a b) eqn:E; [|reflexivity].
  apply str_eqb_eq in E. contradiction.
Qed.

Lemma dict_get_set_same (V : Type) (k : str) (v : V) (d : dict V) :
  dict_get k (dict_set k v d) = Some v.
Proof.
  induction d as [|[k' v'] d IH]; simpl.
  - now rewrite str_eqb_refl.
  - destruct (str_eqb k k') eqn:E; simpl; now rewrite E.
Qed.

Lemma dict_get_set_other (V : Type) (k k' : str) (v : V) (d : dict V) :
  k <> k' -> dict_get k (dict_set k' v d) = dict_get k d.
Proof.
  intros Hne. induction d as [|[k0 v0] d IH]; simpl.
  - now rewrite (str_eqb_neq _ _ Hne).
  - destruct (str_eqb k' k0) eqn:E; simpl.
    + apply str_eqb_eq in E. subst k0. now rewrite (str_eqb_neq _ _ Hne).
    + now rewrite IH.
Qed.

(* ===================================================================== *)
(** * The matcher                                                         *)
(* ===================================================================== *)

Section Matcher.

Variable U : UnicodeDB.

Lemma keyword_matches_spec (text ntext kw nkw : str) :
  keyword_matches U text ntext kw nkw = true <->
  substring (lower U kw) text \/ (nkw <> [] /\ substring nkw ntext).
Proof.
  unfold keyword_matches.
  rewrite orb_true_iff, andb_true_iff, negb_true_iff, is_empty_false.
  now rewrite !str_in_spec.
Qed.

Lemma scan_keywords_In (text ntext : str) (nks : list (str * str))
      (kw : str) :
  In kw (scan_keywords U text ntext nks) <->
  exists nkw, In (kw, nkw) nks /\ keyword_matches U text ntext kw nkw = true.
Proof.
  induction nks as [|[k nk] nks IH]; simpl.
  - split; [tauto | intros [? [[] _]]].
  - destruct (keyword_matches U text ntext k nk) eqn:E; simpl; rewrite IH.
    + split.
      * intros [<- | [n [Hin Hm]]]; [exists nk | exists n]; auto.
      * intros [n [[Heq | Hin] Hm]].
        -- injection Heq as -> ->. now left.
        -- right. now exists n.
    + split.
      * intros [n [Hin Hm]]. exists n. auto.
      * intros [n [[Heq | Hin] Hm]].
        -- injection Heq as -> ->. congruence.
        -- now exists n.
Qed.

Lemma found_in_In (keywords : list str) (text kw : str) :
  In kw (found_in U keywords text) <->
  In kw keywords /\
  keyword_matches U text (normalize_for_match U text)
                  kw (normalize_for_match U kw) = true.
Proof.
  unfold found_in, normalized_keywords_of. rewrite scan_keywords_In. split.
  - intros [n [Hin Hm]]. apply in_map_iff in Hin.
    destruct Hin as [k [Heq Hin]]. injection Heq as -> <-. auto.
  - intros [Hin Hm]. exists (normalize_for_match U kw). split; [|assumption].
    apply in_map_iff. now exists kw.
Qed.

Lemma found_in_count (keywords : list str) (text kw : str) :
  count_occ str_eq_dec (found_in U keywords text) kw =
  if keyword_matches U text (normalize_for_match U text)
                     kw (normalize_for_match U kw)
  then count_occ str_eq_dec keywords kw
  else 0%nat.
Proof.
  unfold found_in, normalized_keywords_of.
  induction keywords as [|k ks IH]; simpl.
  - now destruct (keyword_matches _ _ _ _ _).
  - destruct (str_eq_dec k kw) as [-> | Hne].
    + destruct (keyword_matches U text _ kw _) eqn:E; simpl.
      * destruct (str_eq_dec kw kw); [|congruence]. now rewrite IH.
      * exact IH.
    + destruct (keyword_matches U text _ k _); simpl.
      * destruct (str_eq_dec k kw); [congruence|]. exact IH.
      * exact IH.
Qed.

(** The record of a subject is the matched list of its cleaned file. *)
Lemma match_files_other (keywords : list str) (files : list (str * str))
      (acc : dict (list str)) (stem : str) :
  ~ In stem (map fst files) ->
  dict_get stem (match_files U keywords files acc) = dict_get stem acc.
Proof.
  revert acc. induction files as [|[s t] files IH]; intros acc Hnot.
  - reflexivity.
  - simpl in *. rewrite IH by tauto.
    apply dict_get_set_other. intros ->. tauto.
Qed.

Lemma match_keywords_get (keywords : list str) (files : list (str * str))
      (stem text : str) :
  NoDup (map fst files) -> In (stem, text) files ->
  dict_get stem (match_keywords U keywords files)
  = Some (found_in U keywords text).
Proof.
  unfold match_keywords. generalize (@nil (str * list str)) as acc.
  induction files as [|[s t] files IH]; intros acc Hnd Hin; [destruct Hin|].
  simpl in *. inversion Hnd as [|? ? Hnot Hnd']; subst.
  destruct Hin as [[= -> ->] | Hin].
  - rewrite (match_files_other _ _ _ _ Hnot). apply dict_get_set_same.
  - now apply IH.
Qed.

(** C1.  A keyword is in the matched list of a cleaned text exactly when
    it is a keyword of the list and (a) its lower case form is a literal
    substring of the text, or (b) its fold key is not empty and is a
    literal substring of the fold key of the text; a keyword whose fold
    key is empty is matched by rule (a) alone. *)
Theorem C1_match_rule (keywords : list str) (text kw : str) :
  (In kw (found_in U keywords text) <->
   In kw keywords /\
   (substring (lower U kw) text \/
    (normalize_for_match U kw <> [] /\
     substring (normalize_for_match U kw) (normalize_for_match U text))))
  /\
  (normalize_for_match U kw = [] ->
   (In kw (found_in U keywords text) <->
    In kw keywords /\ substring (lower U kw) text)).
Proof.
  split.
  - now rewrite found_in_In, keyword_matches_spec.
  - intros Hempty. rewrite found_in_In, keyword_matches_spec. split.
    + intros [Hin [Ha | [Hne _]]]; [auto | congruence].
    + intros [Hin Ha]. auto.
Qed.

(** C2 (as amended).  A keyword that matches the document is in its
    matched list once for each of its occurrences in the keyword list, and
    a keyword that does not match is not in it: the matcher removes no
    duplicates. *)
Theorem C2_duplicates_kept (keywords : list str) (text kw : str) :
  count_occ str_eq_dec (found_in U keywords text) kw =
  if keyword_matches U text (normalize_for_match U text)
                     kw (normalize_for_match U kw)
  then count_occ str_eq_dec keywords kw
  else 0%nat.
Proof. apply found_in_count. Qed.

End Matcher.

(** C1, at a keyword with an empty fold key: the keyword [--] against the
    text [a--b]. *)
Lemma C1_match_rule_witness :
  normalize_for_match Ucd.db (lit "--") = [] /\
  (In (lit "--") (found_in Ucd.db [lit "--"] (lit "a--b")) <->
   In (lit "--") [lit "--"] /\
   substring (lower Ucd.db (lit "--")) (lit "a--b")).
Proof.
  split; [reflexivity|].
  apply (proj2 (C1_match_rule Ucd.db [lit "--"] (lit "a--b") (lit "--"))).
  reflexivity.
Defined.

(** C2, as stated, fails: with the keyword list A, B, A the text [a]
    matches A, and A is twice in the matched list. *)
Lemma C2_counterexample :
  found_in Ucd.db [lit "A"; lit "B"; lit "A"] (lit "a") = [lit "A"; lit "A"]
  /\ count_occ str_eq_dec
       (found_in Ucd.db [lit "A"; lit "B"; lit "A"] (lit "a")) (lit "A")
     <> 1%nat.
Proof. split; [reflexivity | vm_compute; discriminate]. Qed.

(* ===================================================================== *)
(** * The aggregator                                                      *)
(* ===================================================================== *)

(** ** Hit counts *)

Lemma counter_get_incr (k k' : str) (c : Counter) :
  counter_get k (counter_incr k' c) =
  if str_eqb k k' then S (counter_get k' c) else counter_get k c.
Proof.
  unfold counter_incr, counter_get at 1.
  destruct (str_eqb k k') eqn:E.
  - apply str_eqb_eq in E. subst k'. now rewrite dict_get_set_same.
  - rewrite dict_get_set_other; [reflexivity|].
    intros ->. now rewrite str_eqb_refl in E.
Qed.

Lemma counter_get_fold (k : str) (l : list str) :
  NoDup l ->
  forall c : Counter,
    counter_get k (fold_left (fun c kw => counter_incr kw c) l c) =
    (counter_get k c + (if list_in k l then 1 else 0))%nat.
Proof.
  induction 1 as [|x l Hx Hl IH]; intros c; simpl.
  - lia.
  - rewrite IH, counter_get_incr. destruct (str_eqb k x) eqn:E; simpl.
    + apply str_eqb_eq in E. subst x.
      destruct (list_in k l) eqn:El; [|lia].
      apply list_in_In in El. contradiction.
    + destruct (list_in k l); lia.
Qed.

(** The counter of a keyword is the number of subjects whose matched list
    holds it, in whatever order the sets are run through. *)
Lemma count_hits_get (k : str) (m : dict (list str)) (c : Counter) :
  counter_get k (count_hits m c) =
  (counter_get k c
   + List.length (filter (fun item => list_in k (snd item)) m))%nat.
Proof.
  revert c. induction m as [|[t ms] m IH]; intros c; simpl.
  - lia.
  - rewrite IH, counter_get_fold by apply NoDup_nodup.
    assert (E : list_in k (set_of ms) = list_in k ms).
    { destruct (list_in k ms) eqn:E1.
      - apply list_in_In. apply nodup_In. now apply list_in_In.
      - destruct (list_in k (set_of ms)) eqn:E2; [|reflexivity].
        apply list_in_In, nodup_In, list_in_In in E2. congruence. }
    rewrite E. destruct (list_in k ms); simpl; lia.
Qed.

(** C3.  With the keyword list a, b and one subject that matched a, the
    listing has the single line [a: 1]: the keyword b, which has no hit,
    is not listed.  ([ordered] is sorted before the zero counts are put
    into [counts].) *)
Example C3_zero_hits_not_listed :
  list_keywords [lit "a"; lit "b"] [(lit "t", [lit "a"])] = [lit "a: 1"].
Proof. reflexivity. Qed.

(** When some keyword has a hit, the listing is that of the counted
    keywords only, whatever the keyword list is. *)
Lemma list_keywords_hits_only (keywords : list str)
      (matches_by_teacher : dict (list str)) :
  count_hits matches_by_teacher [] <> [] ->
  list_keywords keywords matches_by_teacher =
  map fmt_count (sorted rank_ltb (count_hits matches_by_teacher [])).
Proof.
  intros Hne. unfold list_keywords.
  destruct (sorted rank_ltb (count_hits matches_by_teacher [])) eqn:E;
    [|reflexivity].
  exfalso. apply Hne. now apply (sorted_nil rank_ltb).
Qed.

(** C4, as stated, fails: the two subjects with two matches are ranked by
    ascending key, and U+4E59 (yi) is smaller than U+7532 (jia). *)
Lemma C4_counterexample :
  let m := [ (JIA, [lit "k1"; lit "k2"]); (YI, [lit "k1"; lit "k2"])
           ; (BING, []) ] in
  teacher_counts m = [(JIA, 2%nat); (YI, 2%nat); (BING, 0%nat)] /\
  map fst (top_teachers m) <> [JIA; YI; BING].
Proof. split; [reflexivity | vm_compute; discriminate]. Qed.

Lemma Permutation_three (A : Type) (a b c : A) (l : list A) :
  Permutation l [a; b; c] ->
  l = [a; b; c] \/ l = [a; c; b] \/ l = [b; a; c] \/
  l = [b; c; a] \/ l = [c; a; b] \/ l = [c; b; a].
Proof.
  intros H. pose proof (Permutation_length H) as Hlen.
  destruct l as [|x [|y [|z [|? ?]]]]; try discriminate.
  assert (Hx : In x [a; b; c]) by (apply (Permutation_in _ H); simpl; auto).
  simpl in Hx. destruct Hx as [<- | [<- | [<- | []]]].
  - apply Permutation_cons_inv in H.
    apply Permutation_length_2_inv in H. destruct H as [H | H];
      injection H as -> ->; auto.
  - apply Permutation_sym in H.
    assert (H' : Permutation [a; b; c] (b :: [a; c]))
      by apply perm_swap.
    apply Permutation_sym in H'.
    pose proof (Permutation_trans H' H) as H2.
    apply Permutation_cons_inv in H2. apply Permutation_sym in H2.
    apply Permutation_length_2_inv in H2. destruct H2 as [H2 | H2];
      injection H2 as -> ->; auto 10.
  - apply Permutation_sym in H.
    assert (H' : Permutation (c :: [a; b]) [a; b; c]).
    { change [a; b; c] with ([a; b] ++ [c]).
      apply Permutation_cons_append. }
    pose proof (Permutation_trans H' H) as H2.
    apply Permutation_cons_inv in H2. apply Permutation_sym in H2.
    apply Permutation_length_2_inv in H2. destruct H2 as [H2 | H2];
      injection H2 as -> ->; auto 10.
Qed.

(** C4 (as amended).  For three subjects with the distinct-match counts
    jia 2, yi 2, bing 0, in whatever order the mapping holds them, the
    top-3 listing is yi, jia, bing (count descending, then key ascending
    by code point) and the zero-match list is bing. *)
Theorem C4_top3_by_code_point (m : dict (list str)) :
  Permutation (teacher_counts m)
              [(JIA, 2%nat); (YI, 2%nat); (BING, 0%nat)] ->
  top_teachers m = [(YI, 2%nat); (JIA, 2%nat); (BING, 0%nat)] /\
  map fst (top_teachers m) = [YI; JIA; BING] /\
  no_match m = [BING].
Proof.
  intros H. unfold top_teachers, no_match.
  apply Permutation_three in H.
  destruct H as [H | [H | [H | [H | [H | H]]]]]; rewrite H;
    repeat split; reflexivity.
Qed.

Lemma C4_top3_by_code_point_witness :
  let m := [ (BING, []); (JIA, [lit "k1"; lit "k2"; lit "k1"])
           ; (YI, [lit "k1"; lit "k2"]) ] in
  top_teachers m = [(YI, 2%nat); (JIA, 2%nat); (BING, 0%nat)] /\
  map fst (top_teachers m) = [YI; JIA; BING] /\
  no_match m = [BING].
Proof.
  apply (C4_top3_by_code_point
           [ (BING, []); (JIA, [lit "k1"; lit "k2"; lit "k1"])
           ; (YI, [lit "k1"; lit "k2"]) ]).
  change (Permutation [(BING, 0%nat); (JIA, 2%nat); (YI, 2%nat)]
                      [(JIA, 2%nat); (YI, 2%nat); (BING, 0%nat)]).
  change (Permutation ((BING, 0%nat) :: [(JIA, 2%nat); (YI, 2%nat)])
                      ([(JIA, 2%nat); (YI, 2%nat)] ++ [(BING, 0%nat)])).
  apply Permutation_cons_append.
Defined.

(** ** The empty corpus *)

Lemma keyword_lines_empty (keywords : list str) :
  keyword_lines keywords [] = map (fun k => k ++ lit ": 0") keywords.
Proof. reflexivity. Qed.

(** The section of the subjects without a match shows the mark for
    "none" also when there are subjects and each of them has a match. *)
Lemma no_match_lines_all_matched (m : dict (list str)) :
  Forall (fun item => snd item <> []) m -> no_match_lines m = [NONE_MARK].
Proof.
  intros H. unfold no_match_lines, no_match.
  replace (filter (fun item => (snd item =? 0)%nat) (teacher_counts m))
    with (@nil (str * nat)); [reflexivity|].
  unfold teacher_counts. induction H as [|[t ms] m Hms Hm IH]; [reflexivity|].
  simpl in *. rewrite <- IH.
  destruct ms as [|k ms]; [congruence|].
  assert (Hin : In k (set_of (k :: ms))) by (apply nodup_In; now left).
  destruct (set_of (k :: ms)); [destruct Hin | reflexivity].
Qed.

Lemma fmt_count_not_mark (item : str * nat) : fmt_count item <> NONE_MARK.
Proof.
  intros E. apply (f_equal (@List.length codepoint)) in E.
  unfold fmt_count in E. rewrite !length_app in E. simpl in E. lia.
Qed.

(** The top-3 section shows the mark for "none" for the empty mapping
    and for no other. *)
Lemma top_lines_mark (m : dict (list str)) :
  top_lines m = [NONE_MARK] <-> m = [].
Proof.
  split; [|intros ->; reflexivity].
  destruct m as [|item m]; [reflexivity|]. intros H. exfalso.
  unfold top_lines, top_teachers in H.
  destruct (sorted rank_ltb (teacher_counts (item :: m))) as [|x l] eqn:E.
  - apply sorted_nil in E. discriminate E.
  - simpl in H. injection H as H _. exact (fmt_count_not_mark x H).
Qed.

Lemma app_same_length {A : Type} (a b x y : list A) :
  List.length a = List.length b -> a ++ x = b ++ y -> a = b /\ x = y.
Proof.
  revert b. induction a as [|c a IH]; intros [|d b] Hl E; try discriminate.
  - now split.
  - simpl in *. injection E as -> E. injection Hl as Hl.
    destruct (IH b Hl E) as [-> ->]. now split.
Qed.

(** The lines of the report are those of the empty corpus for the empty
    mapping only. *)
Lemma summary_lines_empty (keywords : list str) (m : dict (list str)) :
  summary_lines keywords m = summary_lines keywords [] <-> m = [].
Proof.
  split; [|intros ->; reflexivity].
  unfold summary_lines. intros E.
  apply app_inv_head in E.
  apply app_same_length in E;
    [|unfold keyword_lines; now rewrite !length_map].
  destruct E as [_ E]. do 2 apply app_inv_head in E.
  destruct m as [|item m]; [reflexivity|]. exfalso.
  unfold top_lines, top_teachers in E.
  destruct (sorted rank_ltb (teacher_counts (item :: m))) as [|x l] eqn:Es.
  - apply sorted_nil in Es. discriminate Es.
  - simpl in E. injection E as E _. exact (fmt_count_not_mark x E).
Qed.

(** C5.  For the empty corpus every keyword of the list is shown with
    the count 0, the top-3 section shows the mark for "none" (its signal
    for "no subjects"), and the list of the subjects without a match is
    empty; its section stands under a header of its own, which is not the
    header of the top-3 section, and shows the mark.  The top-3 section
    shows the mark for the empty mapping only, and so the lines of the
    report are those of the empty corpus for the empty mapping only:
    "no subjects" is told apart from "all subjects matched".  The report
    is the three headers with these lines. *)
Theorem C5_empty_corpus (keywords : list str) :
  keyword_lines keywords [] = map (fun k => k ++ lit ": 0") keywords /\
  top_teachers [] = [] /\ top_lines [] = [NONE_MARK] /\
  no_match [] = [] /\ no_match_lines [] = [NONE_MARK] /\
  HEADER_TOP3 <> HEADER_NO_MATCH /\
  (forall m, top_lines m = [NONE_MARK] <-> m = []) /\
  (forall m, summary_lines keywords m = summary_lines keywords [] <-> m = []) /\
  build_summary keywords [] =
  join [0x0A]
       ([HEADER_KEYWORDS] ++ map (fun k => k ++ lit ": 0") keywords
        ++ [[]; HEADER_TOP3; NONE_MARK; []; HEADER_NO_MATCH; NONE_MARK])
  ++ [0x0A].
Proof.
  split; [reflexivity|]. split; [reflexivity|]. split; [reflexivity|].
  split; [reflexivity|]. split; [reflexivity|]. split; [discriminate|].
  split; [exact top_lines_mark|].
  split; [exact (summary_lines_empty keywords) | reflexivity].
Qed.

(** ** Searching a keyword *)

Lemma matching_teachers_In (keyword : str) (m : dict (list str))
      (teacher : str) :
  In teacher (matching_teachers keyword m) <->
  exists matches, In (teacher, matches) m /\ In keyword matches.
Proof.
  unfold matching_teachers. split.
  - intros H. apply (Permutation_in _ (Permutation_sym (sorted_perm _ _))) in H.
    apply in_map_iff in H. destruct H as [[t ms] [<- H]].
    apply filter_In in H. destruct H as [Hin Hk]. simpl in *.
    exists ms. split; [assumption | now apply list_in_In].
  - intros [ms [Hin Hk]]. apply (Permutation_in _ (sorted_perm _ _)).
    apply in_map_iff. exists (teacher, ms). split; [reflexivity|].
    apply filter_In. split; [assumption | now apply list_in_In].
Qed.

(** C8.  The subject search prints the subjects whose matched list holds
    the keyword, each as often as the mapping holds it, in ascending
    order; when there is none (as for a keyword that is no keyword of the
    list, which the search never looks at) it prints the line for "no
    matching subject".  The function is total. *)
Theorem C8_search_keyword (keyword : str) (m : dict (list str)) :
  let hits := map fst (filter (fun item => list_in keyword (snd item)) m) in
  Permutation hits (matching_teachers keyword m) /\
  StronglySorted str_le (matching_teachers keyword m) /\
  (forall teacher,
      In teacher (matching_teachers keyword m) <->
      exists matches, In (teacher, matches) m /\ In keyword matches) /\
  (hits <> [] -> search_keyword keyword m = matching_teachers keyword m) /\
  (hits = [] -> search_keyword keyword m = [NO_TEACHER]).
Proof.
  intros hits. split; [apply sorted_perm|].
  split; [apply sorted_str_StronglySorted|].
  split; [apply matching_teachers_In|].
  unfold search_keyword, matching_teachers. fold hits. split.
  - intros Hne. destruct (sorted str_ltb hits) eqn:E; [|reflexivity].
    exfalso. apply Hne. now apply (sorted_nil str_ltb).
  - intros ->. reflexivity.
Qed.

Lemma C8_search_keyword_witness :
  search_keyword (lit "ai") [(lit "wang", [lit "ai"]); (lit "li", [lit "ai"])]
  = [lit "li"; lit "wang"] /\
  search_keyword (lit "zz") [(lit "wang", [lit "ai"]); (lit "li", [lit "ai"])]
  = [NO_TEACHER].
Proof.
  split.
  - apply (proj1 (proj2 (proj2 (proj2
      (C8_search_keyword (lit "ai")
         [(lit "wang", [lit "ai"]); (lit "li", [lit "ai"])]))))).
    vm_compute. discriminate.
  - apply (proj2 (proj2 (proj2 (proj2
      (C8_search_keyword (lit "zz")
         [(lit "wang", [lit "ai"]); (lit "li", [lit "ai"])]))))).
    reflexivity.
Defined.

(* ===================================================================== *)
(** * The normaliser                                                      *)
(* ===================================================================== *)

(** ** Characters of the result come from the input *)

Lemma is_linebreak_isspace (c : codepoint) :
  is_linebreak c = true -> isspace c = true.
Proof.
  unfold is_linebreak, isspace. intros H.
  repeat (apply orb_true_iff in H; destruct H as [H | H]);
    repeat (apply andb_true_iff in H; destruct H as [? ?]);
    repeat match goal with
           | H : (_ <=? _) = true |- _ => apply N.leb_le in H
           | H : (_ =? _) = true |- _ => apply N.eqb_eq in H
           end;
    repeat (apply orb_true_iff;
            first [ right; apply N.eqb_eq; lia
                  | right; apply andb_true_iff; split; apply N.leb_le; lia
                  | left ]);
    apply andb_true_iff; split; apply N.leb_le; lia.
Qed.

(** Induction over a string that may step over two characters at once, as
    [splitlines_from] does for a carriage return and a line feed. *)
Lemma str_ind2 (P : str -> Prop) :
  P [] ->
  (forall c rest,
      P rest -> (forall d rest', rest = d :: rest' -> P rest') ->
      P (c :: rest)) ->
  forall s, P s.
Proof.
  intros Hnil Hcons s.
  assert (H : P s /\ (forall d r, s = d :: r -> P r)).
  { induction s as [|c s [IH1 IH2]].
    - split; [exact Hnil | discriminate].
    - split; [now apply Hcons | now intros d r [= _ <-]]. }
  exact (proj1 H).
Qed.

Lemma splitlines_from_cons (cur : str) (c : codepoint) (rest : str) :
  splitlines_from cur (c :: rest) =
  if is_linebreak c then cur :: splitlines_from [] (after_break c rest)
  else splitlines_from (cur ++ [c]) rest.
Proof.
  simpl. destruct (is_linebreak c); [|reflexivity].
  destruct rest as [|d rest']; simpl; [reflexivity|].
  now destruct ((c =? 0x0D) && (d =? 0x0A)).
Qed.

Section CharsKept.
Variable P : codepoint -> Prop.

Lemma splitlines_from_Forall (s cur : str) :
  Forall P cur -> Forall P s -> Forall (Forall P) (splitlines_from cur s).
Proof.
  revert cur. induction s as [|c rest IH1 IH2] using str_ind2;
    intros cur Hcur Hs.
  - simpl. destruct cur; [constructor|].
    constructor; [assumption | constructor].
  - rewrite splitlines_from_cons. inversion Hs; subst.
    destruct (is_linebreak c).
    + constructor; [assumption|].
      destruct rest as [|d rest']; simpl; [constructor|].
      destruct ((c =? 0x0D) && (d =? 0x0A)).
      * apply (IH2 d rest' eq_refl); [constructor|].
        now inversion H2.
      * apply IH1; [constructor | assumption].
    + apply IH1; [|assumption].
      apply Forall_app. split; [assumption | now constructor].
Qed.

Lemma lstrip_Forall (s : str) : Forall P s -> Forall P (lstrip s).
Proof.
  induction 1 as [|c s Hc Hs IH]; simpl; [constructor|].
  destruct (isspace c); [assumption | now constructor].
Qed.

Lemma strip_Forall (s : str) : Forall P s -> Forall P (strip s).
Proof.
  intros H. unfold strip, rstrip.
  apply Forall_rev, lstrip_Forall, Forall_rev, lstrip_Forall, H.
Qed.

Lemma re_sub_from_Forall (p : codepoint -> bool) (repl : str)
      (b : bool) (s : str) :
  Forall P repl -> Forall P s -> Forall P (re_sub_from p repl b s).
Proof.
  intros Hr Hs. revert b.
  induction Hs as [|c s Hc Hs IH]; intros b; simpl; [constructor|].
  destruct (p c).
  - apply Forall_app. split; [destruct b; [constructor | assumption]|].
    apply IH.
  - constructor; [assumption | apply IH].
Qed.

Lemma clean_lines_Forall (ls : list str) :
  P 0x20 -> Forall (Forall P) ls -> Forall (Forall P) (clean_lines ls).
Proof.
  intros Hsp. induction 1 as [|l ls Hl Hls IH]; simpl; [constructor|].
  destruct (is_empty (strip l)); [assumption|].
  constructor; [|assumption].
  apply re_sub_from_Forall; [repeat constructor; assumption|].
  now apply strip_Forall.
Qed.

Lemma join_Forall (sep : str) (ls : list str) :
  Forall P sep -> Forall (Forall P) ls -> Forall P (join sep ls).
Proof.
  intros Hsep. induction 1 as [|l ls Hl Hls IH]; simpl; [constructor|].
  destruct ls as [|l' ls']; [assumption|].
  apply Forall_app. split; [assumption|].
  apply Forall_app. split; assumption.
Qed.
End CharsKept.

(** ** White space only *)

Lemma all_space_Forall (s : str) :
  all_space s = true <-> Forall (fun c => isspace c = true) s.
Proof.
  unfold all_space. rewrite forallb_forall, Forall_forall. tauto.
Qed.

Lemma lstrip_all_space (s : str) : all_space s = true -> lstrip s = [].
Proof.
  induction s as [|c s IH]; simpl; [reflexivity|].
  intros H. apply andb_true_iff in H. destruct H as [Hc Hs].
  rewrite Hc. auto.
Qed.

Lemma strip_all_space (s : str) : all_space s = true -> strip s = [].
Proof.
  intros H. unfold strip. now rewrite (lstrip_all_space _ H).
Qed.

Lemma clean_lines_all_space (ls : list str) :
  Forall (fun l => all_space l = true) ls -> clean_lines ls = [].
Proof.
  induction 1 as [|l ls Hl Hls IH]; simpl; [reflexivity|].
  now rewrite (strip_all_space _ Hl).
Qed.

Lemma table_get_Some_In (c v : codepoint) (t : list (codepoint * codepoint)) :
  table_get c t = Some v -> In (c, v) t.
Proof.
  induction t as [|[k w] t IH]; simpl; [discriminate|].
  destruct (N.eqb_spec c k) as [-> | _].
  - intros [= ->]. now left.
  - intros H. right. auto.
Qed.

(** No white space character is in the punctuation table. *)
Lemma isspace_untranslated (c : codepoint) :
  isspace c = true -> untranslated c.
Proof.
  unfold untranslated. intros Hs.
  destruct (table_get c PUNCT_TRANSLATION) as [v|] eqn:E; [|reflexivity].
  apply table_get_Some_In in E. simpl in E.
  repeat (destruct E as [E | E];
          [injection E as <- _; vm_compute in Hs; discriminate|]).
  destruct E.
Qed.

Lemma translate_untranslated (s : str) :
  Forall untranslated s -> translate PUNCT_TRANSLATION s = s.
Proof.
  unfold translate, untranslated.
  induction 1 as [|c s Hc Hs IH]; [reflexivity|].
  cbn [map]. now rewrite Hc, IH.
Qed.

Lemma translate_all_space (s : str) :
  all_space s = true -> translate PUNCT_TRANSLATION s = s.
Proof.
  intros H. apply translate_untranslated.
  apply all_space_Forall in H. revert H. apply Forall_impl.
  exact isspace_untranslated.
Qed.

(** C9.  [clean_text] is a total function (it has a value for every
    input string), and it returns the empty string for the empty string
    and for every string of white space only.  Of the Unicode database
    this uses that NFKC maps white space to white space and that the
    empty string is lowered to itself. *)
Theorem C9_clean_text_blank (U : UnicodeDB) :
  nfkc_keeps_space U -> lower U [] = [] ->
  forall x : str,
    (exists y, clean_text U x = y) /\
    (all_space x = true -> clean_text U x = []).
Proof.
  intros Hn Hl x. split; [eauto|].
  intros Hx. unfold clean_text.
  destruct (is_empty x); [reflexivity|].
  apply Hn in Hx. rewrite (translate_all_space _ Hx).
  rewrite clean_lines_all_space; [exact Hl|].
  apply all_space_Forall in Hx.
  pose proof (splitlines_from_Forall _ (nfkc U x) [] (Forall_nil _) Hx) as H.
  revert H. apply Forall_impl. intros l. apply all_space_Forall.
Qed.

(** ** Fields and words *)

Lemma parse_cons (c : codepoint) (s : str) :
  parse (c :: s) =
  if isspace c then ([], (c, fst (parse s)) :: snd (parse s))
  else (c :: fst (parse s), snd (parse s)).
Proof. simpl. now destruct (parse s). Qed.

Lemma unparse_parse (s : str) : unparse (fst (parse s)) (snd (parse s)) = s.
Proof.
  unfold unparse. induction s as [|c s IH]; [reflexivity|].
  rewrite parse_cons. destruct (isspace c); simpl; now rewrite IH.
Qed.

Lemma parse_separated (s : str) : separated (snd (parse s)).
Proof.
  unfold separated. induction s as [|c s IH]; [constructor|].
  rewrite parse_cons. destruct (isspace c) eqn:E; simpl; [|assumption].
  now constructor.
Qed.

Lemma parse_app_space (a b : str) (c : codepoint) :
  isspace c = true ->
  parse (a ++ c :: b) =
  (fst (parse a), snd (parse a) ++ (c, fst (parse b)) :: snd (parse b)).
Proof.
  intros Hc. induction a as [|x a IH].
  - simpl app. rewrite parse_cons, Hc. reflexivity.
  - rewrite <- app_comm_cons, !parse_cons, IH.
    now destruct (isspace x).
Qed.

Lemma parse_word (w : str) :
  Forall (fun c => isspace c = false) w -> parse w = (w, []).
Proof.
  induction 1 as [|c w Hc Hw IH]; [reflexivity|].
  now rewrite parse_cons, Hc, IH.
Qed.

Lemma nonempty_app (l1 l2 : list str) :
  nonempty (l1 ++ l2) = nonempty l1 ++ nonempty l2.
Proof. apply filter_app. Qed.

Lemma words_nil : words [] = [].
Proof. reflexivity. Qed.

Lemma words_app_space (a b : str) (c : codepoint) :
  isspace c = true -> words (a ++ c :: b) = words a ++ words b.
Proof.
  intros Hc. unfold words. rewrite (parse_app_space a b c Hc).
  cbn [fst snd]. rewrite map_app. cbn [map snd].
  change (fst (parse a) :: map snd (snd (parse a))
            ++ fst (parse b) :: map snd (snd (parse b)))
    with ((fst (parse a) :: map snd (snd (parse a)))
            ++ (fst (parse b) :: map snd (snd (parse b)))).
  apply nonempty_app.
Qed.

Lemma words_cons_space (c : codepoint) (s : str) :
  isspace c = true -> words (c :: s) = words s.
Proof. intros Hc. exact (words_app_space [] s c Hc). Qed.

Lemma words_snoc_space (c : codepoint) (s : str) :
  isspace c = true -> words (s ++ [c]) = words s.
Proof.
  intros Hc. rewrite (words_app_space s [] c Hc), words_nil. apply app_nil_r.
Qed.

Lemma words_lstrip (s : str) : words (lstrip s) = words s.
Proof.
  induction s as [|c s IH]; simpl; [reflexivity|].
  destruct (isspace c) eqn:E; [|reflexivity].
  now rewrite (words_cons_space c s E).
Qed.

Lemma rstrip_snoc (s : str) (c : codepoint) :
  rstrip (s ++ [c]) = if isspace c then rstrip s else s ++ [c].
Proof.
  unfold rstrip. rewrite rev_app_distr. simpl.
  destruct (isspace c); [reflexivity|].
  simpl. now rewrite rev_involutive.
Qed.

Lemma words_rstrip (s : str) : words (rstrip s) = words s.
Proof.
  induction s as [|c s IH] using rev_ind; [reflexivity|].
  rewrite rstrip_snoc. destruct (isspace c) eqn:E; [|reflexivity].
  now rewrite (words_snoc_space c s E).
Qed.

Lemma words_strip (s : str) : words (strip s) = words s.
Proof. unfold strip. now rewrite words_rstrip, words_lstrip. Qed.

(** [re.sub] on a string given by its fields. *)
Lemma re_sub_from_word (p : codepoint -> bool) (repl : str) (b : bool)
      (w rest : str) :
  Forall (fun c => p c = false) w ->
  re_sub_from p repl b (w ++ rest) =
  w ++ re_sub_from p repl (if is_empty w then b else false) rest.
Proof.
  intros Hw. revert b. induction Hw as [|c w Hc Hw IH]; intros b.
  - reflexivity.
  - simpl. rewrite Hc, IH. now destruct w.
Qed.

Lemma parse_fields_word (s : str) :
  Forall (fun c => isspace c = false) (fst (parse s)) /\
  Forall (fun cf => Forall (fun c => isspace c = false) (snd cf))
         (snd (parse s)).
Proof.
  induction s as [|c s [IH1 IH2]]; [split; constructor|].
  rewrite parse_cons. destruct (isspace c) eqn:E; simpl; split; auto.
Qed.

Lemma words_re_sub_fields (fs : list (codepoint * str)) :
  separated fs ->
  Forall (fun cf => Forall (fun c => isspace c = false) (snd cf)) fs ->
  forall (f : str) (b : bool),
    Forall (fun c => isspace c = false) f ->
    words (re_sub_from isspace [0x20] b (unparse f fs)) =
    nonempty (f :: map snd fs).
Proof.
  unfold unparse.
  induction fs as [|[c g] fs IH]; intros Hsep Hfs f b Hf.
  - simpl flat_map. rewrite (re_sub_from_word _ _ _ _ _ Hf). simpl.
    rewrite app_nil_r. unfold words. now rewrite (parse_word _ Hf).
  - inversion Hsep as [|? ? Hc Hsep']; subst.
    inversion Hfs as [|? ? Hg Hfs']; subst. simpl in Hc, Hg.
    specialize (IH Hsep' Hfs' g true Hg).
    cbn [flat_map fst snd map]. rewrite (re_sub_from_word _ _ _ _ _ Hf).
    cbn [app re_sub_from]. rewrite Hc.
    destruct f as [|x f]; cbn [is_empty].
    + destruct b; cbn [app].
      * rewrite IH. reflexivity.
      * rewrite (words_cons_space 0x20 _ eq_refl).
        rewrite IH. reflexivity.
    + cbn [app].
      change (x :: f ++ 0x20 :: ?r) with ((x :: f) ++ 0x20 :: r).
      rewrite (words_app_space (x :: f) _ 0x20 eq_refl).
      rewrite IH. unfold words. rewrite (parse_word _ Hf). reflexivity.
Qed.

Lemma words_re_sub (s : str) : words (re_sub isspace [0x20] s) = words s.
Proof.
  unfold re_sub. rewrite <- (unparse_parse s) at 1.
  destruct (parse_fields_word s) as [Hf Hfs].
  now rewrite (words_re_sub_fields _ (parse_separated s) Hfs _ false Hf).
Qed.

Lemma words_splitlines_from (s cur : str) :
  flat_map words (splitlines_from cur s) = words (cur ++ s).
Proof.
  revert cur. induction s as [|c rest IH1 IH2] using str_ind2; intros cur.
  - simpl. rewrite app_nil_r. destruct cur; [reflexivity|].
    simpl. apply app_nil_r.
  - rewrite splitlines_from_cons. destruct (is_linebreak c) eqn:E.
    + apply is_linebreak_isspace in E.
      rewrite (words_app_space cur rest c E). cbn [flat_map]. f_equal.
      destruct rest as [|d rest']; [reflexivity|]. unfold after_break.
      destruct ((c =? 0x0D) && (d =? 0x0A)) eqn:E2.
      * apply andb_true_iff in E2. destruct E2 as [_ Ed].
        apply N.eqb_eq in Ed. subst d.
        rewrite (IH2 _ _ eq_refl []). simpl app.
        now rewrite (words_cons_space 0x0A rest' eq_refl).
      * apply (IH1 []).
    + rewrite IH1, <- app_assoc. reflexivity.
Qed.

Lemma words_clean_lines (ls : list str) :
  flat_map words (clean_lines ls) = flat_map words ls.
Proof.
  induction ls as [|l ls IH]; [reflexivity|].
  simpl. destruct (is_empty (strip l)) eqn:E.
  - apply is_empty_true in E. rewrite IH, <- (words_strip l), E.
    reflexivity.
  - simpl. now rewrite IH, words_re_sub, words_strip.
Qed.

Lemma words_join (ls : list str) :
  words (join [0x0A] ls) = flat_map words ls.
Proof.
  induction ls as [|l ls IH]; [reflexivity|].
  destruct ls as [|l' ls'].
  - simpl. now rewrite app_nil_r.
  - change (join [0x0A] (l :: l' :: ls'))
      with (l ++ 0x0A :: join [0x0A] (l' :: ls')).
    rewrite (words_app_space l _ 0x0A eq_refl), IH.
    reflexivity.
Qed.

(** The words of a text are those of its cleaned lines. *)
Lemma words_cleaned (z : str) :
  words (join [0x0A] (clean_lines (splitlines z))) = words z.
Proof.
  rewrite words_join, words_clean_lines. unfold splitlines.
  now rewrite words_splitlines_from.
Qed.

(** ** Lowering and dropping, word by word *)

Lemma re_sub_from_nil_filter (p : codepoint -> bool) (b : bool) (s : str) :
  re_sub_from p [] b s = filter (fun c => negb (p c)) s.
Proof.
  revert b. induction s as [|c s IH]; intros b; simpl; [reflexivity|].
  destruct (p c); simpl.
  - destruct b; apply IH.
  - now rewrite IH.
Qed.

Lemma flat_map_map (A B C : Type) (f : B -> list C) (g : A -> B)
      (l : list A) :
  flat_map f (map g l) = flat_map (fun x => f (g x)) l.
Proof. induction l as [|x l IH]; simpl; [reflexivity | now rewrite IH]. Qed.

Lemma flat_map_nonempty (g : str -> str) (l : list str) :
  g [] = [] -> flat_map g (nonempty l) = flat_map g l.
Proof.
  intros Hg. induction l as [|w l IH]; [reflexivity|].
  simpl. destruct w as [|c w]; simpl.
  - now rewrite Hg, IH.
  - now rewrite IH.
Qed.

Lemma filter_unparse (q : codepoint -> bool) (f : str)
      (fs : list (codepoint * str)) :
  Forall (fun cf => q (fst cf) = false) fs ->
  filter q (unparse f fs) =
  filter q f ++ flat_map (fun cf => filter q (snd cf)) fs.
Proof.
  unfold unparse. intros H. rewrite filter_app. f_equal.
  induction H as [|[c g] fs Hc Hfs IH]; [reflexivity|].
  simpl in *. now rewrite Hc, filter_app, IH.
Qed.

Lemma space_dropped (U : UnicodeDB) (c : codepoint) :
  isspace c = true -> space_or_nonword U c = true.
Proof. unfold space_or_nonword. now intros ->. Qed.

Section CaseLaws.

Variable U : UnicodeDB.
Hypothesis laws : case_laws U.

Lemma lower_unparse (fs : list (codepoint * str)) :
  separated fs ->
  forall f : str,
    lower U (unparse f fs) =
    unparse (lower U f) (map (fun cf => (fst cf, lower U (snd cf))) fs).
Proof.
  unfold unparse.
  induction 1 as [|[c g] fs Hc Hfs IH]; intros f.
  - simpl. now rewrite !app_nil_r.
  - simpl in *. rewrite (lower_split laws f c _ Hc). now rewrite IH.
Qed.

(** Lowering a text and dropping a class of characters that holds the
    white space is done word by word. *)
Lemma dropped_lower_words (p : codepoint -> bool) (s : str) :
  (forall c, isspace c = true -> p c = true) ->
  re_sub p [] (lower U s) =
  flat_map (fun w => re_sub p [] (lower U w)) (words s).
Proof.
  intros Hp. unfold words, re_sub.
  rewrite flat_map_nonempty
    by (rewrite re_sub_from_nil_filter, (lower_nil laws); reflexivity).
  rewrite <- (unparse_parse s) at 1.
  rewrite (lower_unparse _ (parse_separated s)).
  rewrite re_sub_from_nil_filter, filter_unparse.
  - cbn [flat_map]. rewrite re_sub_from_nil_filter. f_equal.
    rewrite !flat_map_map. cbn [snd].
    apply flat_map_ext. intros cf. now rewrite re_sub_from_nil_filter.
  - apply Forall_map. cbn [fst].
    pose proof (parse_separated s) as H. revert H. apply Forall_impl.
    intros cf Hc. now rewrite (Hp _ Hc).
Qed.

Lemma translate_output (s : str) :
  Forall untranslated (translate PUNCT_TRANSLATION s).
Proof.
  unfold translate. apply Forall_map. apply Forall_forall. intros c _.
  destruct (table_get c PUNCT_TRANSLATION) as [v|] eqn:E; [|exact E].
  apply table_get_Some_In in E. simpl in E.
  repeat (destruct E as [E | E]; [injection E as _ <-; reflexivity|]).
  destruct E.
Qed.

(** The cleaned text holds no character of the punctuation table. *)
Lemma clean_text_untranslated (x : str) :
  Forall untranslated (clean_text U x).
Proof.
  unfold clean_text. destruct (is_empty x); [constructor|].
  apply (lower_untranslated laws).
  apply join_Forall; [repeat constructor|].
  apply clean_lines_Forall; [reflexivity|].
  apply splitlines_from_Forall; [constructor | apply translate_output].
Qed.

(** C10 (as amended).  For every string whose cleaned text is left as it
    is by NFKC normalisation, the fold key of the cleaned text is the fold
    key of the string ([laws] are the laws of [str.lower]). *)
Theorem C10_fold_key_after_cleaning (x : str) :
  nfkc U (clean_text U x) = clean_text U x ->
  normalize_for_match U (clean_text U x) = normalize_for_match U x.
Proof.
  intros Hstable. destruct (is_empty x) eqn:Ex.
  - apply is_empty_true in Ex. subst x. reflexivity.
  - unfold normalize_for_match at 1.
    rewrite Hstable, (translate_untranslated _ (clean_text_untranslated x)).
    unfold clean_text. rewrite Ex.
    rewrite (lower_idem laws). unfold normalize_for_match.
    rewrite !(dropped_lower_words _ _ (space_dropped U)).
    now rewrite words_cleaned.
Qed.

End CaseLaws.

(** ** White space put into a text *)

Lemma ws_between_added (t t' : str) : ws_between t t' -> ws_added t t'.
Proof.
  induction 1 as [|c|c w t t' Hw Hne Ht IH].
  - constructor.
  - repeat constructor.
  - constructor. apply all_space_Forall in Hw.
    induction Hw as [|d w Hd Hw IHw]; [exact IH|].
    simpl. now constructor.
Qed.

Lemma ws_added_filter (q : codepoint -> bool) (u u' : str) :
  (forall c, isspace c = true -> q c = false) ->
  ws_added u u' -> filter q u' = filter q u.
Proof.
  intros Hq. induction 1 as [|c t t' Ht IH|c t t' Hc Ht IH]; simpl.
  - reflexivity.
  - now rewrite IH.
  - now rewrite (Hq c Hc).
Qed.

Lemma fold_key_ws_added (U : UnicodeDB) (t t' : str) :
  ws_added (folded_text U t) (folded_text U t') ->
  normalize_for_match U t' = normalize_for_match U t.
Proof.
  intros H. unfold normalize_for_match, re_sub.
  rewrite !re_sub_from_nil_filter.
  apply (ws_added_filter _ _ _
           (fun c Hc => f_equal negb (space_dropped U c Hc)) H).
Qed.

(** C7, as stated, fails: the keyword U+1E96 (h with line below) matches
    the text h, U+0331, which NFKC composes; with a space put between the
    two characters the mark is dropped alone and the fold key is h. *)
Lemma C7_counterexample :
  fold_matches Ucd.db [0x1E96] [0x68; 0x331] = true /\
  ws_between [0x68; 0x331] [0x68; 0x20; 0x331] /\
  fold_matches Ucd.db [0x1E96] [0x68; 0x20; 0x331] = false.
Proof.
  split; [reflexivity|]. split; [|reflexivity].
  apply (ws_between_cons 0x68 [0x20] [0x331] [0x331]).
  - reflexivity.
  - discriminate.
  - constructor.
Qed.

(** ** White space put in where the text splits *)

Lemma ws_added_refl (s : str) : ws_added s s.
Proof. induction s; constructor; assumption. Qed.

Lemma ws_added_insert (x w y : str) :
  all_space w = true -> ws_added (x ++ y) (x ++ w ++ y).
Proof.
  intros Hw. induction x as [|c x IH]; simpl.
  - apply all_space_Forall in Hw.
    induction Hw as [|d w Hd Hw IHw]; [apply ws_added_refl|].
    simpl. now constructor.
  - now constructor.
Qed.

Lemma all_space_app (a b : str) :
  all_space (a ++ b) = all_space a && all_space b.
Proof. apply forallb_app. Qed.

Lemma translate_app (a b : str) :
  translate PUNCT_TRANSLATION (a ++ b) =
  translate PUNCT_TRANSLATION a ++ translate PUNCT_TRANSLATION b.
Proof. apply map_app. Qed.

Section Barrier.

Variable U : UnicodeDB.
Hypothesis laws : case_laws U.
Hypothesis nlaws : nfkc_laws U.

Lemma nfkc_space_run (w b : str) :
  all_space w = true ->
  exists w', all_space w' = true /\ nfkc U (w ++ b) = w' ++ nfkc U b.
Proof.
  induction w as [|c w IH]; intros Hw.
  - now exists [].
  - simpl in Hw. apply andb_true_iff in Hw. destruct Hw as [Hc Hw].
    destruct (IH Hw) as [w' [Hw' Heq]].
    exists (nfkc U [c] ++ w'). split.
    + rewrite all_space_app, Hw'.
      now rewrite (proj2 (nfkc_space nlaws c Hc)).
    + change ((c :: w) ++ b) with ([] ++ c :: (w ++ b)).
      rewrite (nfkc_barrier nlaws [] c (w ++ b) Hc), (nfkc_nil nlaws), Heq.
      simpl. now rewrite app_assoc.
Qed.

Lemma lower_space_run (w y : str) :
  all_space w = true -> lower U (w ++ y) = w ++ lower U y.
Proof.
  induction w as [|c w IH]; intros Hw; [reflexivity|].
  simpl in Hw. apply andb_true_iff in Hw. destruct Hw as [Hc Hw].
  change ((c :: w) ++ y) with ([] ++ c :: (w ++ y)).
  rewrite (lower_split laws [] c (w ++ y) Hc), (lower_nil laws), (IH Hw).
  reflexivity.
Qed.

(** The folded text of a text with white space put in is the folded text
    of the part before, white space, and the folded text of the part
    after. *)
Lemma folded_text_insert (a w b : str) :
  all_space w = true -> w <> [] ->
  exists w', all_space w' = true /\
             folded_text U (a ++ w ++ b) =
             folded_text U a ++ w' ++ folded_text U b.
Proof.
  intros Hw Hne. destruct w as [|c w]; [congruence|].
  simpl in Hw. apply andb_true_iff in Hw. destruct Hw as [Hc Hw].
  destruct (nfkc_space_run w b Hw) as [w1 [Hw1 Heq]].
  destruct (nfkc_space nlaws c Hc) as [Hc1 Hc2].
  destruct (nfkc U [c]) as [|d w0] eqn:Ed; [congruence|].
  simpl in Hc2. apply andb_true_iff in Hc2. destruct Hc2 as [Hd Hw0].
  assert (Hrun : all_space (w0 ++ w1) = true)
    by now rewrite all_space_app, Hw0, Hw1.
  exists (d :: w0 ++ w1). split; [simpl; now rewrite Hd, Hrun|].
  unfold folded_text. simpl app.
  rewrite (nfkc_barrier nlaws a c (w ++ b) Hc), Ed, Heq.
  replace ((d :: w0) ++ w1 ++ nfkc U b)
    with (d :: (w0 ++ w1) ++ nfkc U b) by (simpl; now rewrite app_assoc).
  rewrite translate_app. cbn [translate map].
  fold (translate PUNCT_TRANSLATION ((w0 ++ w1) ++ nfkc U b)).
  rewrite translate_app, (translate_all_space _ Hrun).
  rewrite (isspace_untranslated d Hd).
  rewrite (lower_split laws _ d _ Hd), (lower_space_run _ _ Hrun).
  simpl. now rewrite <- app_assoc.
Qed.

(** White space put in at a place where the text splits for NFKC and for
    lowering leaves the fold key as it is. *)
Lemma fold_key_insert_space (a w b : str) :
  all_space w = true ->
  folded_text U (a ++ b) = folded_text U a ++ folded_text U b ->
  normalize_for_match U (a ++ w ++ b) = normalize_for_match U (a ++ b).
Proof.
  intros Hw Hsplit. destruct w as [|c w]; [reflexivity|].
  apply fold_key_ws_added.
  destruct (folded_text_insert a (c :: w) b Hw) as [w' [Hw' Heq]];
    [discriminate|].
  rewrite Heq, Hsplit. now apply ws_added_insert.
Qed.

Lemma fold_match_insert_space (k a w b : str) :
  fold_matches U k (a ++ b) = true ->
  all_space w = true ->
  folded_text U (a ++ b) = folded_text U a ++ folded_text U b ->
  fold_matches U k (a ++ w ++ b) = true.
Proof.
  intros Hm Hw Hsplit. unfold fold_matches in *.
  now rewrite (fold_key_insert_space a w b Hw Hsplit).
Qed.

Lemma fold_key_filter (t : str) :
  normalize_for_match U t =
  filter (fun c => negb (space_or_nonword U c)) (folded_text U t).
Proof. unfold normalize_for_match, re_sub. apply re_sub_from_nil_filter. Qed.

Lemma all_space_filtered (w : str) :
  all_space w = true ->
  filter (fun c => negb (space_or_nonword U c)) w = [].
Proof.
  intros Hw. apply all_space_Forall in Hw.
  induction Hw as [|c w Hc Hw IH]; [reflexivity|].
  simpl. now rewrite (space_dropped U c Hc).
Qed.

(** The fold key of a text with a run of white space before every piece
    but the first is made of the fold keys of the pieces. *)
Lemma fold_key_spaced (rest : list (str * str)) :
  space_runs rest = true ->
  forall p : str,
    normalize_for_match U (spaced_text p rest) =
    normalize_for_match U p
    ++ flat_map (fun wq => normalize_for_match U (snd wq)) rest.
Proof.
  unfold spaced_text.
  induction rest as [|[w q] rest IH]; intros Hr p.
  - simpl. now rewrite !app_nil_r.
  - simpl in Hr. apply andb_true_iff in Hr. destruct Hr as [Hw Hr].
    apply andb_true_iff in Hw. destruct Hw as [Hne Hw].
    assert (Hw0 : w <> []) by (intros ->; discriminate Hne).
    cbn [flat_map fst snd]. rewrite <- app_assoc.
    destruct (folded_text_insert
                p w (q ++ flat_map (fun wq => fst wq ++ snd wq) rest) Hw Hw0)
      as [w' [Hw' Heq]].
    rewrite (fold_key_filter (p ++ w ++ _)), Heq, !filter_app.
    rewrite (all_space_filtered w' Hw'), <- !fold_key_filter.
    now rewrite (IH Hr q).
Qed.

Lemma fold_key_pieces (p : str) (rest : list (str * str)) :
  splits_at U p rest ->
  normalize_for_match U (pieces_text p rest) =
  normalize_for_match U p
  ++ flat_map (fun wq => normalize_for_match U (snd wq)) rest.
Proof.
  unfold splits_at. intros Hs.
  rewrite fold_key_filter, Hs, filter_app, <- fold_key_filter. f_equal.
  clear Hs. induction rest as [|[w q] rest IH]; [reflexivity|].
  cbn [flat_map snd]. now rewrite filter_app, IH, <- fold_key_filter.
Qed.

(** C7 (as amended).  Let a text be cut into pieces at places where it
    splits for normalisation, translation and lowering.  If a keyword
    fold-matches within the text, it fold-matches within the text with a
    run of white space put in at every cut; the two texts have the same
    fold key.  [laws] and [nlaws] are the laws of [str.lower] and of NFKC
    about white space. *)
Theorem C7_fold_match_white_space (k p : str) (rest : list (str * str)) :
  space_runs rest = true ->
  splits_at U p rest ->
  fold_matches U k (pieces_text p rest) = true ->
  fold_matches U k (spaced_text p rest) = true /\
  normalize_for_match U (spaced_text p rest) =
  normalize_for_match U (pieces_text p rest).
Proof.
  intros Hr Hs Hm.
  assert (Hk : normalize_for_match U (spaced_text p rest) =
               normalize_for_match U (pieces_text p rest))
    by (rewrite (fold_key_spaced rest Hr p), (fold_key_pieces p rest Hs);
        reflexivity).
  split; [|exact Hk]. unfold fold_matches in *. now rewrite Hk.
Qed.

End Barrier.


(** ** Tidy lines *)

Lemma lstrip_head (s : str) (c : codepoint) (r : str) :
  lstrip s = c :: r -> isspace c = false.
Proof.
  induction s as [|d s IH]; simpl; [discriminate|].
  destruct (isspace d) eqn:E; [exact IH|].
  intros [= <- _]. exact E.
Qed.

Lemma lstrip_app_nonspace (a b : str) (c : codepoint) :
  isspace c = false -> lstrip (a ++ c :: b) = lstrip a ++ c :: b.
Proof.
  intros Hc. induction a as [|d a IH]; simpl.
  - now rewrite Hc.
  - destruct (isspace d); [exact IH | reflexivity].
Qed.

Lemma rstrip_cons_nonspace (c : codepoint) (t : str) :
  isspace c = false -> rstrip (c :: t) = c :: rstrip t.
Proof.
  intros Hc. unfold rstrip. simpl rev.
  rewrite (lstrip_app_nonspace (rev t) [] c Hc), rev_app_distr.
  reflexivity.
Qed.

Lemma rstrip_ends_word (u : str) : rstrip u <> [] -> ends_word (rstrip u).
Proof.
  unfold rstrip. destruct (lstrip (rev u)) as [|d r] eqn:E.
  - intros H. now contradiction H.
  - intros _. exists (rev r), d. split; [reflexivity|].
    exact (lstrip_head _ _ _ E).
Qed.

Lemma strip_shape (l : str) :
  strip l <> [] -> starts_space (strip l) = false /\ ends_word (strip l).
Proof.
  intros Hne. split; [|now apply rstrip_ends_word].
  unfold strip in *. destruct (lstrip l) as [|c t] eqn:E.
  - now contradiction Hne.
  - pose proof (lstrip_head _ _ _ E) as Hc.
    now rewrite (rstrip_cons_nonspace c t Hc).
Qed.

Lemma word_cons (c : codepoint) (w : str) :
  isspace c = false -> Forall (fun c => isspace c = false) w ->
  word (c :: w).
Proof. intros Hc Hw. split; [discriminate | now constructor]. Qed.

Lemma tidy_cons (c : codepoint) (t : str) :
  isspace c = false -> tidy t -> tidy (c :: t).
Proof.
  intros Hc Ht. destruct Ht as [w [_ Hw] | w l [_ Hw] Hl].
  - apply tidy_one. now apply word_cons.
  - change (tidy ((c :: w) ++ 0x20 :: l)).
    apply tidy_more; [now apply word_cons | assumption].
Qed.

Lemma ends_word_cons (c : codepoint) (s : str) :
  ends_word (c :: s) -> (s = [] /\ isspace c = false) \/ ends_word s.
Proof.
  intros [s' [d [Heq Hd]]]. destruct s' as [|x s'].
  - injection Heq as -> ->. now left.
  - injection Heq as -> ->. right. now exists s', d.
Qed.

(** Collapsing the white space of a line that ends with a word leaves a
    tidy line, after one U+0020 when the line starts with white space and
    no run is being replaced. *)
Lemma re_sub_tidy (s : str) :
  ends_word s ->
  forall b : bool, exists t,
    tidy t /\
    re_sub_from isspace [0x20] b s =
    (if starts_space s then (if b then [] else [0x20]) ++ t else t).
Proof.
  induction s as [|c s IH]; intros He b.
  - destruct He as [s' [d [Heq _]]]. now destruct s'.
  - apply ends_word_cons in He. destruct He as [[-> Hc] | He].
    + exists [c]. simpl. rewrite Hc. split; [|reflexivity].
      apply tidy_one. apply word_cons; [assumption | constructor].
    + simpl. destruct (isspace c) eqn:Ec.
      * destruct (IH He true) as [t [Ht Heq]]. exists t.
        split; [assumption|]. rewrite Heq.
        now destruct (starts_space s).
      * destruct (IH He false) as [t [Ht Heq]]. rewrite Heq.
        destruct (starts_space s).
        -- exists (c :: 0x20 :: t). split; [|reflexivity].
           apply (tidy_more [c] t); [|assumption].
           apply word_cons; [assumption | constructor].
        -- exists (c :: t). split; [|reflexivity]. now apply tidy_cons.
Qed.

Lemma clean_lines_tidy (ls : list str) : Forall tidy (clean_lines ls).
Proof.
  induction ls as [|l ls IH]; simpl; [constructor|].
  destruct (is_empty (strip l)) eqn:E; [assumption|].
  constructor; [|assumption].
  apply is_empty_false, strip_shape in E. destruct E as [Hs He].
  destruct (re_sub_tidy _ He false) as [t [Ht Heq]].
  unfold re_sub. rewrite Heq, Hs. assumption.
Qed.

Lemma tidy_starts (l : str) : tidy l -> starts_space l = false.
Proof.
  intros [w [Hne Hw] | w l' [Hne Hw] _]; destruct w as [|c w];
    try congruence; simpl; now inversion Hw.
Qed.

Lemma tidy_nonempty (l : str) : tidy l -> is_empty l = false.
Proof.
  intros [w [Hne Hw] | w l' [Hne Hw] _]; destruct w; simpl; congruence.
Qed.

Lemma tidy_ends (l : str) : tidy l -> ends_word l.
Proof.
  induction 1 as [w [Hne Hw] | w l [Hne Hw] Hl IH].
  - destruct (exists_last Hne) as [s' [c ->]].
    exists s', c. split; [reflexivity|].
    apply Forall_app in Hw. destruct Hw as [_ Hc]. now inversion Hc.
  - destruct IH as [s' [c [-> Hc]]].
    exists (w ++ 0x20 :: s'), c. split; [|assumption].
    now rewrite <- app_assoc.
Qed.

Lemma tidy_re_sub (l : str) :
  tidy l -> forall b, re_sub_from isspace [0x20] b l = l.
Proof.
  induction 1 as [w [Hne Hw] | w l [Hne Hw] Hl IH]; intros b.
  - rewrite <- (app_nil_r w) at 1.
    rewrite (re_sub_from_word _ _ _ _ _ Hw). simpl. apply app_nil_r.
  - rewrite (re_sub_from_word _ _ _ _ _ Hw). simpl.
    destruct w; [congruence|]. simpl. now rewrite IH.
Qed.

Lemma tidy_strip (l : str) : tidy l -> strip l = l.
Proof.
  intros Ht. unfold strip.
  assert (Hl : lstrip l = l).
  { pose proof (tidy_starts _ Ht) as Hs. destruct l as [|c l]; [reflexivity|].
    simpl in *. now rewrite Hs. }
  rewrite Hl. destruct (tidy_ends _ Ht) as [s' [c [-> Hc]]].
  now rewrite rstrip_snoc, Hc.
Qed.

Lemma clean_lines_tidy_id (ls : list str) :
  Forall tidy ls -> clean_lines ls = ls.
Proof.
  induction 1 as [|l ls Hl Hls IH]; simpl; [reflexivity|].
  rewrite (tidy_strip _ Hl), (tidy_nonempty _ Hl), IH.
  unfold re_sub. now rewrite (tidy_re_sub _ Hl).
Qed.

Lemma isspace_not_linebreak (c : codepoint) :
  isspace c = false -> is_linebreak c = false.
Proof.
  intros Hc. destruct (is_linebreak c) eqn:E; [|reflexivity].
  apply is_linebreak_isspace in E. congruence.
Qed.

Lemma tidy_no_linebreak (l : str) :
  tidy l -> Forall (fun c => is_linebreak c = false) l.
Proof.
  assert (Hword : forall w, Forall (fun c => isspace c = false) w ->
                            Forall (fun c => is_linebreak c = false) w).
  { intros w. apply Forall_impl. exact isspace_not_linebreak. }
  induction 1 as [w [Hne Hw] | w l [Hne Hw] Hl IH]; [auto|].
  apply Forall_app. split; [auto|]. now constructor.
Qed.

Lemma splitlines_from_line (l : str) :
  Forall (fun c => is_linebreak c = false) l ->
  forall cur s,
    splitlines_from cur (l ++ s) = splitlines_from (cur ++ l) s.
Proof.
  induction 1 as [|c l Hc Hl IH]; intros cur s.
  - now rewrite app_nil_r.
  - rewrite <- app_comm_cons, splitlines_from_cons, Hc, IH.
    now rewrite <- app_assoc.
Qed.

Lemma splitlines_join (ls : list str) :
  Forall tidy ls -> splitlines (join [0x0A] ls) = ls.
Proof.
  unfold splitlines. induction 1 as [|l ls Hl Hls IH]; [reflexivity|].
  pose proof (tidy_no_linebreak _ Hl) as Hb.
  pose proof (tidy_nonempty _ Hl) as Hn.
  destruct ls as [|l' ls'].
  - simpl join. rewrite <- (app_nil_r l) at 1.
    rewrite (splitlines_from_line _ Hb). simpl. now destruct l.
  - change (join [0x0A] (l :: l' :: ls'))
      with (l ++ 0x0A :: join [0x0A] (l' :: ls')).
    rewrite (splitlines_from_line _ Hb), splitlines_from_cons.
    change (is_linebreak 0x0A) with true. cbv iota. simpl app.
    f_equal. inversion Hls as [|? ? Hl' _]; subst.
    pose proof (tidy_nonempty _ Hl') as Hn'.
    destruct (join [0x0A] (l' :: ls')) as [|d r] eqn:E.
    + destruct l'; [discriminate Hn'|]. simpl in E.
      destruct ls'; discriminate.
    + exact IH.
Qed.

Section Idempotence.

Variable U : UnicodeDB.
Hypothesis laws : case_laws U.

Lemma lower_join (ls : list str) :
  lower U (join [0x0A] ls) = join [0x0A] (map (lower U) ls).
Proof.
  induction ls as [|l ls IH]; [exact (lower_nil laws)|].
  destruct ls as [|l' ls']; [reflexivity|].
  change (join [0x0A] (l :: l' :: ls'))
    with (l ++ 0x0A :: join [0x0A] (l' :: ls')).
  rewrite (lower_split laws l 0x0A _ eq_refl), IH. reflexivity.
Qed.

Lemma lower_tidy (l : str) : tidy l -> tidy (lower U l).
Proof.
  induction 1 as [w [Hne Hw] | w l [Hne Hw] Hl IH].
  - apply tidy_one. exact (lower_word laws w Hne Hw).
  - rewrite (lower_split laws w 0x20 _ eq_refl).
    apply tidy_more; [exact (lower_word laws w Hne Hw) | assumption].
Qed.

(** C6 (as amended).  For every string whose cleaned text is left as it
    is by NFKC normalisation, cleaning the cleaned text gives it back
    ([laws] are the laws of [str.lower]). *)
Theorem C6_clean_text_idempotent (x : str) :
  nfkc U (clean_text U x) = clean_text U x ->
  clean_text U (clean_text U x) = clean_text U x.
Proof.
  intros Hstable. unfold clean_text at 1.
  destruct (is_empty (clean_text U x)) eqn:Ey.
  - apply is_empty_true in Ey. now rewrite Ey.
  - rewrite Hstable,
      (translate_untranslated _ (clean_text_untranslated U laws x)).
    unfold clean_text in *. destruct (is_empty x); [discriminate|].
    set (ls := clean_lines (splitlines
                 (translate PUNCT_TRANSLATION (nfkc U x)))).
    assert (Hls : Forall tidy (map (lower U) ls)).
    { apply Forall_map. pose proof (clean_lines_tidy
        (splitlines (translate PUNCT_TRANSLATION (nfkc U x)))) as H.
      revert H. apply Forall_impl. exact lower_tidy. }
    rewrite (lower_join ls).
    rewrite (splitlines_join _ Hls), (clean_lines_tidy_id _ Hls).
    rewrite <- (lower_join ls). apply (lower_idem laws).
Qed.

End Idempotence.

(* ===================================================================== *)
(** * The fragment of the character database meets the laws               *)
(* ===================================================================== *)

(** A property that is decided for each code point holds for all of them
    when it holds below U+10000, by running through them, and from
    U+10000 on, where the tables of the fragment are inert. *)
Lemma check_from_spec (P : codepoint -> bool) (fuel : nat) (c : codepoint) :
  check_from P fuel c = true ->
  forall d, c <= d -> d < c + N.of_nat fuel -> P d = true.
Proof.
  revert c. induction fuel as [|fuel IH]; intros c H d Hle Hlt.
  - lia.
  - simpl in H. apply andb_true_iff in H. destruct H as [Hc Hrest].
    destruct (N.eq_dec c d) as [<- | Hne]; [assumption|].
    apply (IH (N.succ c) Hrest); lia.
Qed.

Lemma by_plane (P : codepoint -> bool) :
  check_from P (N.to_nat 0x10000) 0 = true ->
  (forall c, 0x10000 <= c -> P c = true) ->
  forall c, P c = true.
Proof.
  intros Hlow Hhigh c. destruct (N.le_gt_cases 0x10000 c) as [H | H].
  - now apply Hhigh.
  - apply (check_from_spec P _ 0 Hlow); [lia|].
    rewrite N2Nat.id. exact H.
Qed.

Ltac N_cases :=
  repeat match goal with
         | |- context [N.leb ?a ?b] =>
             destruct (N.leb_spec a b); try lia
         | |- context [N.eqb ?a ?b] =>
             destruct (N.eqb_spec a b); try lia
         end.

Lemma Ucd_lower_char_high (c : codepoint) :
  0x10000 <= c -> Ucd.lower_char c = c.
Proof.
  unfold Ucd.lower_char, Ucd.capitals_line_below. simpl existsb.
  intros H. N_cases; reflexivity.
Qed.

Lemma isspace_high (c : codepoint) : 0x10000 <= c -> isspace c = false.
Proof. unfold isspace. intros H. N_cases; reflexivity. Qed.

Lemma Ucd_lower_char_space_b (c : codepoint) :
  implb (isspace c) (Ucd.lower_char c =? c) = true.
Proof.
  revert c. apply by_plane; [vm_compute; reflexivity|].
  intros c H. now rewrite (isspace_high c H).
Qed.

Lemma Ucd_lower_char_nonspace_b (c : codepoint) :
  implb (negb (isspace c)) (negb (isspace (Ucd.lower_char c))) = true.
Proof.
  revert c. apply by_plane; [vm_compute; reflexivity|].
  intros c H. rewrite (Ucd_lower_char_high c H).
  now destruct (isspace c).
Qed.

Lemma Ucd_lower_char_idem_b (c : codepoint) :
  (Ucd.lower_char (Ucd.lower_char c) =? Ucd.lower_char c) = true.
Proof.
  revert c. apply by_plane; [vm_compute; reflexivity|].
  intros c H. rewrite !(Ucd_lower_char_high c H). apply N.eqb_refl.
Qed.

Lemma Ucd_lower_char_untranslated_b (c : codepoint) :
  implb (is_untranslated c) (is_untranslated (Ucd.lower_char c)) = true.
Proof.
  revert c. apply by_plane; [vm_compute; reflexivity|].
  intros c H. rewrite (Ucd_lower_char_high c H).
  now destruct (is_untranslated c).
Qed.

Lemma Ucd_lower_char_space (c : codepoint) :
  isspace c = true -> Ucd.lower_char c = c.
Proof.
  intros H. pose proof (Ucd_lower_char_space_b c) as Hb.
  rewrite H in Hb. now apply N.eqb_eq.
Qed.

Lemma Ucd_lower_char_nonspace (c : codepoint) :
  isspace c = false -> isspace (Ucd.lower_char c) = false.
Proof.
  intros H. pose proof (Ucd_lower_char_nonspace_b c) as Hb.
  rewrite H in Hb. now apply negb_true_iff.
Qed.

Lemma Ucd_lower_char_idem (c : codepoint) :
  Ucd.lower_char (Ucd.lower_char c) = Ucd.lower_char c.
Proof. apply N.eqb_eq, Ucd_lower_char_idem_b. Qed.

Lemma Ucd_lower_char_untranslated (c : codepoint) :
  untranslated c -> untranslated (Ucd.lower_char c).
Proof.
  unfold untranslated. intros H.
  pose proof (Ucd_lower_char_untranslated_b c) as Hb.
  unfold is_untranslated in Hb. rewrite H in Hb.
  destruct (table_get (Ucd.lower_char c) PUNCT_TRANSLATION);
    [discriminate Hb | reflexivity].
Qed.

Lemma Ucd_case_laws : case_laws Ucd.db.
Proof.
  constructor; simpl.
  - reflexivity.
  - intros a c b Hc. rewrite map_app. simpl.
    now rewrite (Ucd_lower_char_space c Hc).
  - intros w Hne Hw. split.
    + destruct w; [congruence | discriminate].
    + apply Forall_map. revert Hw. apply Forall_impl.
      exact Ucd_lower_char_nonspace.
  - intros s Hs. apply Forall_map. revert Hs. apply Forall_impl.
    exact Ucd_lower_char_untranslated.
  - intros s. rewrite map_map. apply map_ext.
    exact Ucd_lower_char_idem.
Qed.

(** ** Normalisation of white space *)

Lemma Ucd_decomposition_space_b (c : codepoint) :
  implb (isspace c) (all_space (Ucd.decomposition c)) = true.
Proof.
  revert c. apply by_plane; [vm_compute; reflexivity|].
  intros c H. now rewrite (isspace_high c H).
Qed.

Lemma Ucd_ccc_space_b (c : codepoint) :
  implb (isspace c) (Ucd.ccc c =? 0) = true.
Proof.
  revert c. apply by_plane; [vm_compute; reflexivity|].
  intros c H. now rewrite (isspace_high c H).
Qed.

Lemma Ucd_ccc_space (c : codepoint) :
  isspace c = true -> (Ucd.ccc c =? 0) = true.
Proof.
  intros H. pose proof (Ucd_ccc_space_b c) as Hb. now rewrite H in Hb.
Qed.

Lemma compose_in_mark (t : list (codepoint * (codepoint * codepoint)))
      (b m k : codepoint) :
  Ucd.compose_in t b m = Some k -> In m (map (fun e => snd (snd e)) t).
Proof.
  induction t as [|[k' [b' m']] t IH]; simpl; [discriminate|].
  destruct (N.eqb_spec b b') as [_ | _]; simpl; [|auto].
  destruct (N.eqb_spec m m') as [-> | _]; auto.
Qed.

Lemma Ucd_compose_space (b c : codepoint) :
  isspace c = true -> Ucd.compose_in Ucd.composites b c = None.
Proof.
  intros Hc. destruct (Ucd.compose_in Ucd.composites b c) eqn:E;
    [|reflexivity].
  apply compose_in_mark in E. simpl in E.
  repeat (destruct E as [E | E]; [subst c; discriminate Hc|]).
  destruct E.
Qed.

Lemma Ucd_decompose_all_space (s : str) :
  all_space s = true -> all_space (flat_map Ucd.decomposition s) = true.
Proof.
  unfold all_space. induction s as [|c s IH]; [reflexivity|].
  simpl. intros H. apply andb_true_iff in H. destruct H as [Hc Hs].
  rewrite forallb_app, (IH Hs), andb_true_r.
  pose proof (Ucd_decomposition_space_b c) as Hb. now rewrite Hc in Hb.
Qed.

Lemma Ucd_reorder_space (s : str) :
  all_space s = true -> Ucd.reorder s = s.
Proof.
  unfold all_space. induction s as [|c s IH]; [reflexivity|].
  simpl. intros H. apply andb_true_iff in H. destruct H as [Hc Hs].
  now rewrite (Ucd_ccc_space c Hc), (IH Hs).
Qed.

Lemma Ucd_compose_from_space (s : str) :
  all_space s = true ->
  forall st pending,
    Ucd.compose_from st pending s = Ucd.flush st pending ++ s.
Proof.
  unfold all_space. induction s as [|c s IH]; intros H st pending.
  - simpl. now rewrite app_nil_r.
  - simpl in H. apply andb_true_iff in H. destruct H as [Hc Hs].
    cbn [Ucd.compose_from].
    assert (Hnone : match st with
                    | Some b =>
                        if Ucd.blocked pending c then None
                        else Ucd.compose_in Ucd.composites b c
                    | None => None
                    end = None).
    { destruct st; [|reflexivity].
      rewrite (Ucd_compose_space _ c Hc). now destruct (Ucd.blocked _ _). }
    rewrite Hnone, (Ucd_ccc_space c Hc), (IH Hs). reflexivity.
Qed.

Lemma Ucd_nfkc_keeps_space : nfkc_keeps_space Ucd.db.
Proof.
  intros s Hs. simpl. unfold Ucd.normalize_nfkc.
  pose proof (Ucd_decompose_all_space s Hs) as Hd.
  rewrite (Ucd_reorder_space _ Hd), (Ucd_compose_from_space _ Hd).
  exact Hd.
Qed.

(** ** The fragment has the barrier *)

Lemma Ucd_decomposition_space_one_b (c : codepoint) :
  implb (isspace c)
        (match Ucd.decomposition c with
         | [c'] => isspace c'
         | _ => false
         end) = true.
Proof.
  revert c. apply by_plane; [vm_compute; reflexivity|].
  intros c H. now rewrite (isspace_high c H).
Qed.

Lemma Ucd_decomposition_space_one (c : codepoint) :
  isspace c = true ->
  exists c', Ucd.decomposition c = [c'] /\ isspace c' = true.
Proof.
  intros H. pose proof (Ucd_decomposition_space_one_b c) as Hb.
  rewrite H in Hb. destruct (Ucd.decomposition c) as [|c' [|? ?]];
    try discriminate Hb.
  now exists c'.
Qed.

Lemma compose_in_base (t : list (codepoint * (codepoint * codepoint)))
      (b m k : codepoint) :
  Ucd.compose_in t b m = Some k -> In b (map (fun e => fst (snd e)) t).
Proof.
  induction t as [|[k' [b' m']] t IH]; simpl; [discriminate|].
  destruct (N.eqb_spec b b') as [-> | _]; simpl; auto.
Qed.

Lemma Ucd_space_no_base (c m : codepoint) :
  isspace c = true -> Ucd.compose_in Ucd.composites c m = None.
Proof.
  intros Hc. destruct (Ucd.compose_in Ucd.composites c m) eqn:E;
    [|reflexivity].
  apply compose_in_base in E. simpl in E.
  repeat (destruct E as [E | E]; [subst c; discriminate Hc|]).
  destruct E.
Qed.

Lemma Ucd_insert_mark_barrier (x c : codepoint) (p q : str) :
  (Ucd.ccc c =? 0) = true ->
  Ucd.insert_mark x (p ++ c :: q) = Ucd.insert_mark x p ++ c :: q.
Proof.
  intros Hc. induction p as [|d p IH]; simpl.
  - now rewrite Hc.
  - destruct (negb (Ucd.ccc d =? 0) && (Ucd.ccc d <? Ucd.ccc x));
      [now rewrite IH | reflexivity].
Qed.

Lemma Ucd_reorder_barrier (c : codepoint) (p q : str) :
  (Ucd.ccc c =? 0) = true ->
  Ucd.reorder (p ++ c :: q) = Ucd.reorder p ++ c :: Ucd.reorder q.
Proof.
  intros Hc. induction p as [|d p IH]; simpl.
  - now rewrite Hc.
  - rewrite IH. destruct (Ucd.ccc d =? 0); [reflexivity|].
    now apply Ucd_insert_mark_barrier.
Qed.

(** A starter that is the base of no composite can be put out at once. *)
Lemma Ucd_compose_from_inert (c : codepoint) (r : str) :
  (forall m, Ucd.compose_in Ucd.composites c m = None) ->
  forall pending,
    Ucd.compose_from (Some c) pending r
    = c :: Ucd.compose_from None pending r.
Proof.
  intros Hc. induction r as [|x r IH]; intros pending; [reflexivity|].
  cbn [Ucd.compose_from]. rewrite Hc.
  replace (if Ucd.blocked pending x then None else None)
    with (@None codepoint) by now destruct (Ucd.blocked pending x).
  destruct (Ucd.ccc x =? 0); [reflexivity | apply IH].
Qed.

Lemma Ucd_compose_from_barrier (c : codepoint) (p q : str) :
  isspace c = true ->
  forall st pending,
    Ucd.compose_from st pending (p ++ c :: q)
    = Ucd.compose_from st pending p ++ c :: Ucd.compose_from None [] q.
Proof.
  intros Hc. induction p as [|x p IH]; intros st pending.
  - cbn [app Ucd.compose_from].
    assert (Hnone : match st with
                    | Some b =>
                        if Ucd.blocked pending c then None
                        else Ucd.compose_in Ucd.composites b c
                    | None => None
                    end = None).
    { destruct st; [|reflexivity].
      rewrite (Ucd_compose_space _ c Hc). now destruct (Ucd.blocked _ _). }
    rewrite Hnone, (Ucd_ccc_space c Hc).
    now rewrite (Ucd_compose_from_inert c q
                   (fun m => Ucd_space_no_base c m Hc)).
  - cbn [app Ucd.compose_from].
    destruct (match st with
              | Some b =>
                  if Ucd.blocked pending x then None
                  else Ucd.compose_in Ucd.composites b x
              | None => None
              end) as [k|]; [apply IH|].
    destruct (Ucd.ccc x =? 0); [|apply IH].
    now rewrite IH, <- app_assoc.
Qed.

Lemma Ucd_nfkc_space_char (c c' : codepoint) :
  Ucd.decomposition c = [c'] -> isspace c' = true ->
  Ucd.normalize_nfkc [c] = [c'].
Proof.
  intros Hd Hc'. unfold Ucd.normalize_nfkc. cbn [flat_map]. rewrite Hd.
  cbn [app Ucd.reorder]. rewrite (Ucd_ccc_space c' Hc').
  cbn [Ucd.compose_from]. now rewrite (Ucd_ccc_space c' Hc').
Qed.

Lemma Ucd_nfkc_laws : nfkc_laws Ucd.db.
Proof.
  constructor; cbn [nfkc Ucd.db].
  - reflexivity.
  - intros c Hc.
    destruct (Ucd_decomposition_space_one c Hc) as [c' [Hd Hc']].
    rewrite (Ucd_nfkc_space_char c c' Hd Hc').
    split; [discriminate | simpl; now rewrite Hc'].
  - intros a c b Hc.
    destruct (Ucd_decomposition_space_one c Hc) as [c' [Hd Hc']].
    rewrite (Ucd_nfkc_space_char c c' Hd Hc').
    unfold Ucd.normalize_nfkc.
    rewrite flat_map_app. cbn [flat_map]. rewrite Hd. cbn [app].
    rewrite (Ucd_reorder_barrier c' _ _ (Ucd_ccc_space c' Hc')).
    now rewrite (Ucd_compose_from_barrier c' _ _ Hc').
Qed.

(* ===================================================================== *)
(** * The properties on concrete inputs                                   *)
(* ===================================================================== *)

(** C6, as stated, fails: H followed by U+0331 (combining macron below)
    is in NFKC form, and so is its cleaned text as far as [clean_text]
    goes: h, U+0331.  Cleaning again composes the pair to U+1E96. *)
Lemma C6_counterexample :
  clean_text Ucd.db [0x48; 0x331] = [0x68; 0x331] /\
  clean_text Ucd.db (clean_text Ucd.db [0x48; 0x331]) = [0x1E96] /\
  clean_text Ucd.db (clean_text Ucd.db [0x48; 0x331])
  <> clean_text Ucd.db [0x48; 0x331].
Proof.
  split; [reflexivity|]. split; [reflexivity|].
  vm_compute. discriminate.
Qed.

Lemma C6_clean_text_idempotent_witness :
  clean_text Ucd.db
    (clean_text Ucd.db [0x20; 0x41; 0x3000; 0x300A; 0x0D; 0x0A; 0xFF22])
  = clean_text Ucd.db [0x20; 0x41; 0x3000; 0x300A; 0x0D; 0x0A; 0xFF22].
Proof.
  apply (C6_clean_text_idempotent Ucd.db Ucd_case_laws
           [0x20; 0x41; 0x3000; 0x300A; 0x0D; 0x0A; 0xFF22]).
  reflexivity.
Defined.

(** C10, as stated, fails, on the same string: its fold key is h (the
    mark is no word character), the fold key of its cleaned text is
    U+1E96 (a letter). *)
Lemma C10_counterexample :
  normalize_for_match Ucd.db [0x48; 0x331] = [0x68] /\
  normalize_for_match Ucd.db (clean_text Ucd.db [0x48; 0x331]) = [0x1E96] /\
  normalize_for_match Ucd.db (clean_text Ucd.db [0x48; 0x331])
  <> normalize_for_match Ucd.db [0x48; 0x331].
Proof.
  split; [reflexivity|]. split; [reflexivity|].
  vm_compute. discriminate.
Qed.

Lemma C10_fold_key_after_cleaning_witness :
  normalize_for_match Ucd.db
    (clean_text Ucd.db [0x20; 0x41; 0x3000; 0x300A; 0x0D; 0x0A; 0xFF22])
  = normalize_for_match Ucd.db
      [0x20; 0x41; 0x3000; 0x300A; 0x0D; 0x0A; 0xFF22].
Proof.
  apply (C10_fold_key_after_cleaning Ucd.db Ucd_case_laws
           [0x20; 0x41; 0x3000; 0x300A; 0x0D; 0x0A; 0xFF22]).
  reflexivity.
Defined.

Lemma C9_clean_text_blank_witness :
  all_space [0x20; 0x3000; 0x0A; 0x09; 0xA0] = true /\
  clean_text Ucd.db [0x20; 0x3000; 0x0A; 0x09; 0xA0] = [].
Proof.
  split; [reflexivity|].
  apply (proj2 (C9_clean_text_blank Ucd.db Ucd_nfkc_keeps_space eq_refl
                  [0x20; 0x3000; 0x0A; 0x09; 0xA0])).
  reflexivity.
Defined.

(** The scenarios of the specification for the normaliser and the fold
    rule. *)
Example scenario_punctuation :
  (* 研究方向：机器学习，深度学习 *)
  clean_text Ucd.db
    [0x7814; 0x7A76; 0x65B9; 0x5411; 0xFF1A; 0x673A; 0x5668; 0x5B66; 0x4E60;
     0xFF0C; 0x6DF1; 0x5EA6; 0x5B66; 0x4E60]
  = [0x7814; 0x7A76; 0x65B9; 0x5411; 0x3A; 0x673A; 0x5668; 0x5B66; 0x4E60;
     0x2C; 0x6DF1; 0x5EA6; 0x5B66; 0x4E60].
Proof. reflexivity. Qed.

Example scenario_fold_rule :
  (* the keyword 机器 学习 and the text 机器学习 *)
  str_in (lower Ucd.db [0x673A; 0x5668; 0x20; 0x5B66; 0x4E60])
         [0x673A; 0x5668; 0x5B66; 0x4E60] = false /\
  found_in Ucd.db [[0x673A; 0x5668; 0x20; 0x5B66; 0x4E60]]
           [0x673A; 0x5668; 0x5B66; 0x4E60]
  = [[0x673A; 0x5668; 0x20; 0x5B66; 0x4E60]].
Proof. split; reflexivity. Qed.

Example scenario_keyword_list :
  load_keywords (Some (lit " A " ++ [0x0A] ++ lit "B" ++ [0x0D; 0x0A; 0x0A]
                       ++ lit "A"))
  = Some [lit "A"; lit "B"; lit "A"].
Proof. reflexivity. Qed.

(** White space put into [a b] between the two letters, with the fragment
    of the database. *)
Example fold_match_insert_space_ab :
  fold_matches Ucd.db (lit "ab") (lit "a" ++ [0x09; 0x3000] ++ lit "b") = true.
Proof.
  apply (fold_match_insert_space Ucd.db Ucd_case_laws Ucd_nfkc_laws
           (lit "ab") (lit "a") [0x09; 0x3000] (lit "b")); reflexivity.
Qed.

(** The keyword U+1E96, [b] within the text [x], [h], U+0331, [b], cut
    before the letter [h] and after its mark: a space is put in at the
    first cut, a tab and an ideographic space at the second, and the
    letter and its mark still compose. *)
Lemma C7_fold_match_white_space_witness :
  fold_matches Ucd.db [0x1E96; 0x62]
               (lit "x" ++ [0x20] ++ [0x68; 0x331] ++ [0x09; 0x3000]
                ++ lit "b") = true /\
  normalize_for_match Ucd.db
    (lit "x" ++ [0x20] ++ [0x68; 0x331] ++ [0x09; 0x3000] ++ lit "b")
  = normalize_for_match Ucd.db (lit "x" ++ [0x68; 0x331] ++ lit "b").
Proof.
  apply (C7_fold_match_white_space
           Ucd.db Ucd_case_laws Ucd_nfkc_laws [0x1E96; 0x62] (lit "x")
           [([0x20], [0x68; 0x331]); ([0x09; 0x3000], lit "b")]);
    reflexivity.
Defined.

(* ===================================================================== *)
(** * Further properties of main.py                                       *)
(* ===================================================================== *)

(** ** The fold key *)

(** X1.  The fold key of any text holds word characters only
    (alphanumeric or underscore), and so no white space. *)
Theorem X1_fold_key_word_chars (U : UnicodeDB) (x : str) :
  Forall (fun c => is_word U c = true /\ isspace c = false)
         (normalize_for_match U x).
Proof.
  unfold normalize_for_match, re_sub. rewrite re_sub_from_nil_filter.
  apply Forall_forall. intros c Hc. apply filter_In in Hc.
  destruct Hc as [_ Hc]. unfold space_or_nonword in Hc.
  apply negb_true_iff, orb_false_iff in Hc. destruct Hc as [Hs Hw].
  split; [now apply negb_false_iff | assumption].
Qed.

(** ** The lines of the cleaned text *)

Lemma words_word (w : str) : word w -> words w = [w].
Proof.
  intros [Hne Hw]. unfold words. rewrite (parse_word _ Hw). simpl.
  now destruct w.
Qed.

Lemma words_starts (s : str) :
  s <> [] -> starts_space s = false -> words s <> [].
Proof.
  destruct s as [|c s]; [congruence|]. simpl. intros _ Hc.
  unfold words. rewrite parse_cons, Hc. simpl. discriminate.
Qed.

Lemma strip_empty_words (l : str) : strip l = [] <-> words l = [].
Proof.
  split.
  - intros H. now rewrite <- (words_strip l), H.
  - intros H. destruct (strip l) eqn:E; [reflexivity|].
    assert (Hne : strip l <> []) by (rewrite E; discriminate).
    destruct (strip_shape l Hne) as [Hs _].
    apply (words_starts _ Hne) in Hs. now rewrite words_strip in Hs.
Qed.

Lemma tidy_words_join (t : str) :
  tidy t -> words t <> [] /\ join [0x20] (words t) = t.
Proof.
  induction 1 as [w Hw | w l Hw Hl [IHne IH]].
  - rewrite (words_word _ Hw). split; [discriminate | reflexivity].
  - rewrite (words_app_space w _ 0x20 eq_refl), (words_word _ Hw).
    split; [discriminate|].
    destruct (words l) as [|x r] eqn:E; [congruence|].
    change (join [0x20] ([w] ++ x :: r))
      with (w ++ 0x20 :: join [0x20] (x :: r)).
    now rewrite IH.
Qed.

Lemma clean_line_tidy (l : str) :
  strip l <> [] -> tidy (re_sub isspace [0x20] (strip l)).
Proof.
  intros Hne. destruct (strip_shape l Hne) as [Hs He].
  destruct (re_sub_tidy _ He false) as [t [Ht Heq]].
  unfold re_sub. now rewrite Heq, Hs.
Qed.

Lemma clean_lines_by_words (ls : list str) :
  clean_lines ls =
  map (fun l => join [0x20] (words l)) (filter has_words ls).
Proof.
  induction ls as [|l ls IH]; [reflexivity|].
  cbn [clean_lines filter]. cbv zeta.
  destruct (is_empty (strip l)) eqn:E.
  - apply is_empty_true, strip_empty_words in E.
    unfold has_words at 1. now rewrite E.
  - apply is_empty_false in E.
    pose proof (clean_line_tidy l E) as Ht.
    apply tidy_words_join in Ht. destruct Ht as [Hne Hj].
    rewrite words_re_sub, words_strip in Hne, Hj.
    assert (Hh : has_words l = true)
      by (unfold has_words; destruct (words l); congruence).
    rewrite Hh. cbn [map]. now rewrite Hj, IH.
Qed.

(** X2.  The loop over the lines drops the lines without a character
    that is not white space, and turns every other line into its words
    with one U+0020 between them. *)
Theorem X2_clean_lines_words (ls : list str) :
  clean_lines ls =
  map (fun l => join [0x20] (words l)) (filter has_words ls).
Proof. apply clean_lines_by_words. Qed.

Lemma starts_space_join (l : str) (ls : list str) :
  l <> [] -> starts_space (join [0x0A] (l :: ls)) = starts_space l.
Proof.
  intros Hne. destruct l as [|c l]; [congruence|].
  destruct ls; reflexivity.
Qed.

Lemma ends_word_app (a b : str) : ends_word b -> ends_word (a ++ b).
Proof.
  intros [s' [c [-> Hc]]]. exists (a ++ s'), c.
  split; [now rewrite app_assoc | assumption].
Qed.

Lemma ends_word_join (ls : list str) :
  ls <> [] -> Forall tidy ls -> ends_word (join [0x0A] ls).
Proof.
  intros Hne H. induction H as [|l ls Hl Hls IH]; [congruence|].
  destruct ls as [|l' ls'].
  - now apply tidy_ends.
  - change (join [0x0A] (l :: l' :: ls'))
      with (l ++ 0x0A :: join [0x0A] (l' :: ls')).
    apply ends_word_app.
    change (0x0A :: join [0x0A] (l' :: ls'))
      with ([0x0A] ++ join [0x0A] (l' :: ls')).
    apply ends_word_app, IH. discriminate.
Qed.

Lemma strip_fixed (s : str) :
  starts_space s = false -> ends_word s -> strip s = s.
Proof.
  intros Hs [s' [c [-> Hc]]]. unfold strip.
  assert (Hl : lstrip (s' ++ [c]) = s' ++ [c]).
  { destruct s' as [|d s']; simpl in *; [now rewrite Hc | now rewrite Hs]. }
  now rewrite Hl, rstrip_snoc, Hc.
Qed.

Lemma tidy_spaces (l : str) :
  tidy l -> Forall (fun c => isspace c = true -> c = 0x20) l.
Proof.
  assert (Hword : forall w, Forall (fun c => isspace c = false) w ->
                            Forall (fun c => isspace c = true -> c = 0x20) w).
  { intros w. apply Forall_impl. intros c H1 H2. congruence. }
  induction 1 as [w [Hne Hw] | w l [Hne Hw] Hl IH]; [auto|].
  apply Forall_app. split; [auto|]. constructor; auto.
Qed.

Lemma join_tidy_spaces (ls : list str) :
  Forall tidy ls ->
  Forall (fun c => isspace c = true -> c = 0x20 \/ c = 0x0A)
         (join [0x0A] ls).
Proof.
  intros H. apply join_Forall.
  - constructor; [auto | constructor].
  - revert H. apply Forall_impl. intros l Hl.
    apply tidy_spaces in Hl. revert Hl. apply Forall_impl. auto.
Qed.

Section CleanedText.

Variable U : UnicodeDB.
Hypothesis laws : case_laws U.

(** The cleaned text is made of tidy lines with a line feed between. *)
Lemma clean_text_tidy_lines (x : str) :
  exists ls, Forall tidy ls /\ clean_text U x = join [0x0A] ls.
Proof.
  unfold clean_text. destruct (is_empty x).
  - exists []. split; [constructor | reflexivity].
  - exists (map (lower U) (clean_lines (splitlines
              (translate PUNCT_TRANSLATION (nfkc U x))))).
    split; [|apply (lower_join U laws)].
    apply Forall_map. generalize (clean_lines_tidy (splitlines
      (translate PUNCT_TRANSLATION (nfkc U x)))).
    apply Forall_impl. exact (lower_tidy U laws).
Qed.

(** X3.  The lines of the cleaned text, as [splitlines] gives them, are
    each a sequence of words with one U+0020 between (no empty line, no
    white space at either end of a line, no run of white space), and the
    cleaned text is these lines with one line feed between, without a
    line feed at the end. *)
Theorem X3_clean_text_lines (x : str) :
  Forall tidy (splitlines (clean_text U x)) /\
  join [0x0A] (splitlines (clean_text U x)) = clean_text U x.
Proof.
  destruct (clean_text_tidy_lines x) as [ls [Hls ->]].
  rewrite (splitlines_join _ Hls). split; [assumption | reflexivity].
Qed.

(** X4.  The cleaned text has no white space at its ends, and the only
    white space characters in it are U+0020 and the line feed. *)
Theorem X4_clean_text_white_space (x : str) :
  strip (clean_text U x) = clean_text U x /\
  Forall (fun c => isspace c = true -> c = 0x20 \/ c = 0x0A)
         (clean_text U x).
Proof.
  destruct (clean_text_tidy_lines x) as [ls [Hls ->]].
  split; [|now apply join_tidy_spaces].
  destruct ls as [|l ls]; [reflexivity|].
  inversion Hls as [|? ? Hl _]; subst.
  apply strip_fixed.
  - rewrite starts_space_join; [now apply tidy_starts|].
    pose proof (tidy_nonempty _ Hl). now destruct l.
  - apply ends_word_join; [discriminate | assumption].
Qed.

(** X5.  None of the sixteen characters of the punctuation table is left
    in the cleaned text. *)
Theorem X5_clean_text_no_table_punctuation (x : str) (c : codepoint) :
  In c (clean_text U x) -> ~ In c (map fst PUNCT_TRANSLATION).
Proof.
  intros Hc Hin.
  pose proof (clean_text_untranslated U laws x) as H.
  rewrite Forall_forall in H. specialize (H c Hc). unfold untranslated in H.
  simpl in Hin.
  repeat (destruct Hin as [Hin | Hin]; [subst c; discriminate H|]).
  destruct Hin.
Qed.

End CleanedText.

Lemma X3_clean_text_lines_witness :
  Forall tidy (splitlines (clean_text Ucd.db (lit "  Deep   Learning ")))
  /\ join [0x0A] (splitlines (clean_text Ucd.db (lit "  Deep   Learning ")))
     = clean_text Ucd.db (lit "  Deep   Learning ").
Proof.
  exact (X3_clean_text_lines Ucd.db Ucd_case_laws (lit "  Deep   Learning ")).
Defined.

Lemma X4_clean_text_white_space_witness :
  strip (clean_text Ucd.db [0x09; 0x41; 0x3000; 0x0D; 0x42; 0x20])
  = clean_text Ucd.db [0x09; 0x41; 0x3000; 0x0D; 0x42; 0x20] /\
  Forall (fun c => isspace c = true -> c = 0x20 \/ c = 0x0A)
         (clean_text Ucd.db [0x09; 0x41; 0x3000; 0x0D; 0x42; 0x20]).
Proof.
  exact (X4_clean_text_white_space Ucd.db Ucd_case_laws
           [0x09; 0x41; 0x3000; 0x0D; 0x42; 0x20]).
Defined.

Lemma X5_clean_text_no_table_punctuation_witness :
  In 0x3C (clean_text Ucd.db [0x300A; 0x41]) /\
  ~ In 0x3C (map fst PUNCT_TRANSLATION).
Proof.
  split; [now left|].
  apply (X5_clean_text_no_table_punctuation Ucd.db Ucd_case_laws
           [0x300A; 0x41] 0x3C).
  now left.
Defined.

(** ** The keyword list *)

Lemma splitlines_from_no_linebreak (s cur : str) :
  no_linebreak cur -> Forall no_linebreak (splitlines_from cur s).
Proof.
  unfold no_linebreak. revert cur.
  induction s as [|c rest IH1 IH2] using str_ind2; intros cur Hcur.
  - simpl. destruct cur; [constructor|].
    constructor; [assumption | constructor].
  - rewrite splitlines_from_cons. destruct (is_linebreak c) eqn:E.
    + constructor; [assumption|].
      destruct rest as [|d rest']; [constructor|]. unfold after_break.
      destruct ((c =? 0x0D) && (d =? 0x0A)).
      * apply (IH2 d rest' eq_refl). constructor.
      * apply IH1. constructor.
    + apply IH1. apply Forall_app. split; [assumption|].
      constructor; [assumption | constructor].
Qed.

Lemma strip_strip (l : str) : strip (strip l) = strip l.
Proof.
  destruct (strip l) eqn:E; [reflexivity|]. rewrite <- E.
  assert (Hne : strip l <> []) by (rewrite E; discriminate).
  destruct (strip_shape l Hne) as [Hs He]. now apply strip_fixed.
Qed.

Lemma stripped_lines_entries (ls : list str) :
  Forall no_linebreak ls ->
  Forall (fun k => k <> [] /\ strip k = k /\ no_linebreak k)
         (stripped_lines ls).
Proof.
  induction 1 as [|l ls Hl Hls IH]; simpl; [constructor|].
  destruct (is_empty (strip l)) eqn:E; [assumption|].
  constructor; [|assumption].
  split; [now apply is_empty_false|].
  split; [apply strip_strip | now apply strip_Forall].
Qed.

(** X6.  Without the keyword file there is no keyword list (the function
    raises); with it, every keyword of the list is not empty, has no
    white space at its ends and holds no line boundary. *)
Theorem X6_load_keywords_entries :
  load_keywords None = None /\
  forall content, exists keywords,
    load_keywords (Some content) = Some keywords /\
    Forall (fun k => k <> [] /\ strip k = k /\ no_linebreak k) keywords.
Proof.
  split; [reflexivity|]. intros content.
  exists (stripped_lines (splitlines content)). split; [reflexivity|].
  apply stripped_lines_entries, splitlines_from_no_linebreak. constructor.
Qed.

(** ** The match records *)

Lemma dict_get_absent (V : Type) (k : str) (d : dict V) :
  ~ In k (keys d) -> dict_get k d = None.
Proof.
  induction d as [|[k' v'] d IH]; simpl; [reflexivity|].
  intros H. rewrite str_eqb_neq by (intros ->; tauto). apply IH. tauto.
Qed.

Lemma dict_set_absent (V : Type) (k : str) (v : V) (d : dict V) :
  ~ In k (keys d) -> dict_set k v d = d ++ [(k, v)].
Proof.
  induction d as [|[k' v'] d IH]; simpl; [reflexivity|].
  intros H. rewrite str_eqb_neq by (intros ->; tauto).
  rewrite IH by tauto. reflexivity.
Qed.

Lemma match_files_records (U : UnicodeDB) (keywords : list str)
      (files : list (str * str)) :
  NoDup (map fst files) ->
  forall acc : dict (list str),
    (forall k, In k (map fst files) -> ~ In k (keys acc)) ->
    match_files U keywords files acc =
    acc ++ map (fun f => (fst f, found_in U keywords (snd f))) files.
Proof.
  induction files as [|[stem text] files IH]; intros Hnd acc Hacc.
  - simpl. now rewrite app_nil_r.
  - simpl in *. inversion Hnd as [|? ? Hnot Hnd']; subst.
    rewrite (dict_set_absent _ _ _ _ (Hacc stem (or_introl eq_refl))).
    rewrite (IH Hnd').
    + now rewrite <- app_assoc.
    + intros k Hk Hin. unfold keys in Hin. rewrite map_app in Hin.
      apply in_app_or in Hin. destruct Hin as [Hin | [<- | []]].
      * exact (Hacc k (or_intror Hk) Hin).
      * contradiction.
Qed.

(** X7.  When the cleaned files have distinct stems, the match records
    hold one entry for each file, in the order of the files: its stem
    with the matched list of its text. *)
Theorem X7_match_keywords_records (U : UnicodeDB) (keywords : list str)
        (files : list (str * str)) :
  NoDup (map fst files) ->
  match_keywords U keywords files =
  map (fun f => (fst f, found_in U keywords (snd f))) files.
Proof.
  intros Hnd. unfold match_keywords.
  rewrite (match_files_records U keywords files Hnd []); [reflexivity|].
  intros k _ [].
Qed.

Lemma X7_match_keywords_records_witness :
  match_keywords Ucd.db [lit "ai"]
    [(lit "li", lit "ai lab"); (lit "wang", lit "systems")]
  = [(lit "li", [lit "ai"]); (lit "wang", [])].
Proof.
  apply (X7_match_keywords_records Ucd.db [lit "ai"]
           [(lit "li", lit "ai lab"); (lit "wang", lit "systems")]).
  repeat constructor; simpl; intuition discriminate.
Defined.

(** ** The summary *)

Lemma keyword_lines_counts (keywords : list str) (m : dict (list str)) :
  keyword_lines keywords m =
  map (fun k => fmt_count (k, subjects_with k m)) keywords.
Proof.
  unfold keyword_lines. apply map_ext. intros k.
  now rewrite count_hits_get.
Qed.

(** X8.  The first section of the summary has one line for each keyword
    of the list, in list order, with the number of subjects whose
    matched list holds the keyword; a subject counts once, however often
    its list holds the keyword. *)
Theorem X8_keyword_lines_count (keywords : list str) (m : dict (list str)) :
  keyword_lines keywords m =
  map (fun k => k ++ lit ": " ++ str_of_nat (subjects_with k m)) keywords.
Proof. apply keyword_lines_counts. Qed.

Lemma set_of_nil (ms : list str) : set_of ms = [] <-> ms = [].
Proof.
  split; [|now intros ->].
  destruct ms as [|k ms]; [reflexivity|]. intros H.
  assert (Hin : In k (set_of (k :: ms))) by (apply nodup_In; now left).
  rewrite H in Hin. destruct Hin.
Qed.

(** X9.  A subject is in the list of the subjects without a match
    exactly when its matched list is empty, and that list is in
    ascending order. *)
Theorem X9_no_match_complete (m : dict (list str)) :
  (forall teacher, In teacher (no_match m) <-> In (teacher, []) m) /\
  StronglySorted str_le (no_match m).
Proof.
  split; [|apply sorted_str_StronglySorted].
  intros teacher. unfold no_match, teacher_counts. split.
  - intros H.
    apply (Permutation_in _ (Permutation_sym (sorted_perm _ _))) in H.
    apply in_map_iff in H. destruct H as [[t n] [<- H]].
    apply filter_In in H. destruct H as [H Hz]. simpl in Hz.
    apply in_map_iff in H. destruct H as [[t' ms] [Heq H]].
    simpl in Heq. injection Heq as Ht Hn. subst t' n.
    apply Nat.eqb_eq in Hz. apply length_zero_iff_nil in Hz.
    apply (proj1 (set_of_nil ms)) in Hz. now subst ms.
  - intros H. apply (Permutation_in _ (sorted_perm _ _)).
    apply in_map_iff. exists (teacher, 0%nat). split; [reflexivity|].
    apply filter_In. split; [|reflexivity].
    apply in_map_iff. now exists (teacher, []).
Qed.

(** The order of the ranking. *)
Lemma rank_ltb_asym (a b : str * nat) :
  rank_ltb a b = true -> rank_ltb b a = false.
Proof.
  unfold rank_ltb. destruct a as [na ca], b as [nb cb]. simpl.
  intros H. apply orb_true_iff in H.
  destruct (Nat.ltb_spec cb ca), (Nat.ltb_spec ca cb),
    (Nat.eqb_spec ca cb), (Nat.eqb_spec cb ca); simpl in *; try lia;
    destruct H as [H | H]; try discriminate; auto using str_ltb_asym.
Qed.

Lemma rank_le_trans (a b c : str * nat) :
  rank_le a b -> rank_le b c -> rank_le a c.
Proof.
  unfold rank_le, rank_ltb. destruct a as [na ca], b as [nb cb], c as [nc cc].
  simpl. intros H1 H2.
  apply orb_false_iff in H1. apply orb_false_iff in H2.
  destruct H1 as [H1 H1'], H2 as [H2 H2'].
  apply Nat.ltb_ge in H1. apply Nat.ltb_ge in H2.
  apply orb_false_iff. split; [apply Nat.ltb_ge; lia|].
  destruct (Nat.eqb_spec cc ca) as [-> | _]; [|reflexivity].
  assert (cb = ca) by lia. subst cb.
  rewrite Nat.eqb_refl in H1', H2'. simpl in *.
  exact (str_le_trans _ _ _ H1' H2').
Qed.

Lemma sorted_rank_StronglySorted (l : list (str * nat)) :
  StronglySorted rank_le (sorted rank_ltb l).
Proof.
  apply Sorted_StronglySorted.
  - intros a b c. apply rank_le_trans.
  - apply sorted_Sorted. exact rank_ltb_asym.
Qed.

Lemma StronglySorted_firstn (A : Type) (R : A -> A -> Prop) (l : list A)
      (n : nat) :
  StronglySorted R l ->
  StronglySorted R (firstn n l) /\
  forall a b, In a (firstn n l) -> In b (skipn n l) -> R a b.
Proof.
  intros H. revert n. induction H as [|x l Hl IH Hx]; intros n.
  - rewrite firstn_nil, skipn_nil. split; [constructor | intros ? ? []].
  - destruct n as [|n]; simpl.
    + split; [constructor | intros ? ? []].
    + destruct (IH n) as [IH1 IH2]. split.
      * constructor; [assumption|].
        rewrite Forall_forall in *. intros y Hy. apply Hx.
        rewrite <- (firstn_skipn n l). apply in_or_app. now left.
      * intros a b [<- | Ha] Hb; [|now apply IH2].
        rewrite Forall_forall in Hx. apply Hx.
        rewrite <- (firstn_skipn n l). apply in_or_app. now right.
Qed.

(** X10.  The top-3 listing holds three subjects, or all of them when
    there are fewer, each with the number of its distinct matched
    keywords; they are in ranking order (count descending, then key
    ascending), and no other subject ranks before one of them. *)
Theorem X10_top_teachers_best (m : dict (list str)) :
  List.length (top_teachers m) = Nat.min 3 (List.length m) /\
  StronglySorted rank_le (top_teachers m) /\
  exists rest,
    Permutation (teacher_counts m) (top_teachers m ++ rest) /\
    forall a b, In a (top_teachers m) -> In b rest -> rank_le a b.
Proof.
  unfold top_teachers.
  pose proof (sorted_rank_StronglySorted (teacher_counts m)) as Hs.
  destruct (StronglySorted_firstn _ _ _ 3%nat Hs) as [H1 H2].
  split; [|split; [exact H1|]].
  - rewrite length_firstn.
    rewrite <- (Permutation_length (sorted_perm rank_ltb (teacher_counts m))).
    unfold teacher_counts. now rewrite length_map.
  - exists (skipn 3 (sorted rank_ltb (teacher_counts m))).
    split; [|exact H2].
    rewrite firstn_skipn. apply sorted_perm.
Qed.

(** ** The order of the mapping does not matter *)

Lemma str_ltb_antisym (a b : str) :
  str_ltb a b = false -> str_ltb b a = false -> a = b.
Proof.
  revert b. induction a as [|x a IH]; intros [|y b]; simpl; try congruence.
  intros H1 H2. apply orb_false_iff in H1. apply orb_false_iff in H2.
  destruct H1 as [H1 H1'], H2 as [H2 H2'].
  apply N.ltb_ge in H1. apply N.ltb_ge in H2.
  assert (x = y) by lia. subst y.
  rewrite N.eqb_refl in H1', H2'. simpl in *. f_equal. auto.
Qed.

Lemma rank_ltb_antisym (a b : str * nat) :
  rank_ltb a b = false -> rank_ltb b a = false -> a = b.
Proof.
  unfold rank_ltb. destruct a as [na ca], b as [nb cb]. simpl.
  intros H1 H2. apply orb_false_iff in H1. apply orb_false_iff in H2.
  destruct H1 as [H1 H1'], H2 as [H2 H2'].
  apply Nat.ltb_ge in H1. apply Nat.ltb_ge in H2.
  assert (ca = cb) by lia. subst cb.
  rewrite Nat.eqb_refl in H1', H2'. simpl in *.
  f_equal. now apply str_ltb_antisym.
Qed.

Section SortedUnique.
Variable A : Type.
Variable le : A -> A -> Prop.
Hypothesis le_antisym : forall a b, le a b -> le b a -> a = b.

(** Two sorted lists with the same elements are the same list. *)
Lemma StronglySorted_unique (l l' : list A) :
  StronglySorted le l -> StronglySorted le l' -> Permutation l l' ->
  l = l'.
Proof.
  intros Hl. revert l'. induction Hl as [|a l Hl IH Ha]; intros l' Hl' Hp.
  - apply Permutation_nil in Hp. now subst.
  - destruct Hl' as [|b l' Hl' Hb].
    + apply Permutation_sym, Permutation_nil in Hp. discriminate.
    + assert (Hab : a = b).
      { assert (H1 : In a (b :: l'))
          by (apply (Permutation_in _ Hp); now left).
        assert (H2 : In b (a :: l))
          by (apply (Permutation_in _ (Permutation_sym Hp)); now left).
        rewrite Forall_forall in Ha, Hb.
        destruct H1 as [H1 | H1]; [now symmetry|].
        destruct H2 as [H2 | H2]; [assumption|].
        apply le_antisym; auto. }
      subst b. f_equal. apply IH; [assumption|].
      now apply Permutation_cons_inv in Hp.
Qed.
End SortedUnique.

Lemma sorted_str_perm (l l' : list str) :
  Permutation l l' -> sorted str_ltb l = sorted str_ltb l'.
Proof.
  intros Hp. apply (StronglySorted_unique _ str_le).
  - intros a b H1 H2. symmetry. now apply str_ltb_antisym.
  - apply sorted_str_StronglySorted.
  - apply sorted_str_StronglySorted.
  - rewrite <- (sorted_perm str_ltb l), <- (sorted_perm str_ltb l').
    assumption.
Qed.

Lemma sorted_rank_perm (l l' : list (str * nat)) :
  Permutation l l' -> sorted rank_ltb l = sorted rank_ltb l'.
Proof.
  intros Hp. apply (StronglySorted_unique _ rank_le).
  - intros a b H1 H2. symmetry. now apply rank_ltb_antisym.
  - apply sorted_rank_StronglySorted.
  - apply sorted_rank_StronglySorted.
  - rewrite <- (sorted_perm rank_ltb l), <- (sorted_perm rank_ltb l').
    assumption.
Qed.

Lemma filter_perm (A : Type) (f : A -> bool) (l l' : list A) :
  Permutation l l' -> Permutation (filter f l) (filter f l').
Proof.
  induction 1 as [|x l l' Hp IH|x y l|l l' l'' H1 IH1 H2 IH2]; simpl.
  - constructor.
  - destruct (f x); [now constructor | assumption].
  - destruct (f x), (f y); try reflexivity. apply perm_swap.
  - now transitivity (filter f l').
Qed.

Lemma subjects_with_perm (k : str) (m m' : dict (list str)) :
  Permutation m m' -> subjects_with k m = subjects_with k m'.
Proof.
  intros Hp. unfold subjects_with.
  apply Permutation_length. now apply filter_perm.
Qed.

(** X11.  The summary does not depend on the order in which the mapping
    holds the subjects: every order in the report comes from a sort
    whose key tells any two entries apart. *)
Theorem X11_build_summary_order (keywords : list str)
        (m m' : dict (list str)) :
  Permutation m m' ->
  build_summary keywords m = build_summary keywords m'.
Proof.
  intros Hp. unfold build_summary, summary_lines.
  assert (Hk : keyword_lines keywords m = keyword_lines keywords m').
  { rewrite !keyword_lines_counts. apply map_ext. intros k.
    now rewrite (subjects_with_perm k m m' Hp). }
  assert (Hc : Permutation (teacher_counts m) (teacher_counts m'))
    by now apply Permutation_map.
  assert (Ht : top_lines m = top_lines m').
  { unfold top_lines, top_teachers. now rewrite (sorted_rank_perm _ _ Hc). }
  assert (Hn : no_match_lines m = no_match_lines m').
  { unfold no_match_lines, no_match.
    rewrite (sorted_str_perm _
      (map fst (filter (fun item => (snd item =? 0)%nat) (teacher_counts m'))));
      [reflexivity|].
    now apply Permutation_map, filter_perm. }
  now rewrite Hk, Ht, Hn.
Qed.

Lemma X11_build_summary_order_witness :
  build_summary [lit "ai"] [(lit "li", [lit "ai"]); (lit "wang", [])]
  = build_summary [lit "ai"] [(lit "wang", []); (lit "li", [lit "ai"])].
Proof.
  apply (X11_build_summary_order [lit "ai"]
           [(lit "li", [lit "ai"]); (lit "wang", [])]
           [(lit "wang", []); (lit "li", [lit "ai"])]).
  apply perm_swap.
Defined.

(** X12.  The subject search does not depend on the order of the mapping
    either. *)
Theorem X12_search_keyword_order (keyword : str) (m m' : dict (list str)) :
  Permutation m m' -> search_keyword keyword m = search_keyword keyword m'.
Proof.
  intros Hp. unfold search_keyword, matching_teachers.
  rewrite (sorted_str_perm _
    (map fst (filter (fun item => list_in keyword (snd item)) m')));
    [reflexivity|].
  now apply Permutation_map, filter_perm.
Qed.

Lemma X12_search_keyword_order_witness :
  search_keyword (lit "ai") [(lit "li", [lit "ai"]); (lit "an", [lit "ai"])]
  = search_keyword (lit "ai") [(lit "an", [lit "ai"]); (lit "li", [lit "ai"])].
Proof.
  apply (X12_search_keyword_order (lit "ai")
           [(lit "li", [lit "ai"]); (lit "an", [lit "ai"])]
           [(lit "an", [lit "ai"]); (lit "li", [lit "ai"])]).
  apply perm_swap.
Defined.

(** ** The keyword listing *)

Lemma dict_set_keys_NoDup (V : Type) (k : str) (v : V) (d : dict V) :
  NoDup (keys d) -> NoDup (keys (dict_set k v d)).
Proof.
  intros Hnd. destruct (in_dec str_eq_dec k (keys d)) as [Hin | Hnot].
  - assert (E : keys (dict_set k v d) = keys d); [|now rewrite E].
    clear Hnd. induction d as [|[k' v'] d IH]; [destruct Hin|].
    simpl. destruct (str_eqb k k') eqn:Ek; [reflexivity|].
    simpl. f_equal. apply IH. destruct Hin as [Hin | Hin]; [|assumption].
    simpl in Hin. subst k'. now rewrite str_eqb_refl in Ek.
  - rewrite (dict_set_absent _ _ _ _ Hnot). unfold keys in *.
    rewrite map_app. simpl.
    apply Permutation_NoDup with (l := k :: map fst d).
    + apply Permutation_cons_append.
    + now constructor.
Qed.

Lemma count_hits_keys_NoDup (m : dict (list str)) (c : Counter) :
  NoDup (keys c) -> NoDup (keys (count_hits m c)).
Proof.
  revert c. induction m as [|[t ms] m IH]; intros c Hc; [assumption|].
  simpl. apply IH. generalize (set_of ms) as l. intros l. revert c Hc.
  induction l as [|k l IHl]; intros c Hc; [assumption|].
  simpl. apply IHl. now apply dict_set_keys_NoDup.
Qed.

Lemma In_dict_get (V : Type) (k : str) (v : V) (d : dict V) :
  NoDup (keys d) -> In (k, v) d -> dict_get k d = Some v.
Proof.
  induction d as [|[k' v'] d IH]; intros Hnd Hin; [destruct Hin|].
  simpl in *. inversion Hnd as [|? ? Hnot Hnd']; subst.
  destruct Hin as [[= -> ->] | Hin].
  - now rewrite str_eqb_refl.
  - rewrite str_eqb_neq; [now apply IH|].
    intros ->. apply Hnot. apply in_map_iff. now exists (k', v).
Qed.

Lemma counter_get_fill_zero (k : str) (keywords : list str) (c : Counter) :
  counter_get k (fill_zero keywords c) = counter_get k c.
Proof.
  revert c. induction keywords as [|kw kws IH]; intros c; [reflexivity|].
  simpl. rewrite IH. destruct (list_in kw (keys c)) eqn:E; [reflexivity|].
  unfold counter_get. destruct (str_eq_dec k kw) as [-> | Hne].
  - rewrite dict_get_set_same, dict_get_absent; [reflexivity|].
    intros Hin. apply list_in_In in Hin. congruence.
  - now rewrite dict_get_set_other.
Qed.

(** X13.  Every line of the keyword listing shows a keyword with the
    number of subjects whose matched list holds it. *)
Theorem X13_list_keywords_counts (keywords : list str)
        (m : dict (list str)) :
  exists items,
    list_keywords keywords m = map fmt_count items /\
    Forall (fun item => snd item = subjects_with (fst item) m) items.
Proof.
  unfold list_keywords.
  assert (Hget : forall k, counter_get k (count_hits m []) = subjects_with k m)
    by (intros k; now rewrite count_hits_get).
  destruct (sorted rank_ltb (count_hits m [])) as [|it its] eqn:E.
  - eexists. split; [reflexivity|].
    apply Forall_map, Forall_forall. intros k _. simpl.
    now rewrite counter_get_fill_zero.
  - exists (it :: its). split; [reflexivity|].
    apply Forall_forall. intros [k n] Hin. simpl. rewrite <- Hget.
    rewrite <- E in Hin.
    apply (Permutation_in _ (Permutation_sym (sorted_perm _ _))) in Hin.
    unfold counter_get.
    rewrite (In_dict_get _ k n _ (count_hits_keys_NoDup m [] (NoDup_nil _)) Hin).
    reflexivity.
Qed.

Lemma count_hits_no_hit (m : dict (list str)) (c : Counter) :
  Forall (fun item => snd item = []) m -> count_hits m c = c.
Proof.
  intros H. revert c. induction H as [|[t ms] m Hms Hm IH]; intros c.
  - reflexivity.
  - simpl in *. subst ms. simpl. apply IH.
Qed.

(** X14.  When no subject has a match, the keyword listing is the
    keyword list in its own order, each keyword with the count 0. *)
Theorem X14_list_keywords_no_hit (keywords : list str)
        (m : dict (list str)) :
  Forall (fun item => snd item = []) m ->
  list_keywords keywords m = map (fun k => k ++ lit ": 0") keywords.
Proof.
  intros H. unfold list_keywords. rewrite (count_hits_no_hit m [] H).
  simpl. rewrite map_map. apply map_ext. intros k.
  unfold fmt_count. simpl fst. simpl snd.
  now rewrite counter_get_fill_zero.
Qed.

Lemma X14_list_keywords_no_hit_witness :
  list_keywords [lit "b"; lit "a"; lit "b"] [(lit "li", []); (lit "an", [])]
  = [lit "b: 0"; lit "a: 0"; lit "b: 0"].
Proof.
  apply (X14_list_keywords_no_hit [lit "b"; lit "a"; lit "b"]
           [(lit "li", []); (lit "an", [])]).
  repeat constructor.
Defined.

(* ===================================================================== *)
(** * Properties of spider_thu_cs.py                                      *)
(* ===================================================================== *)

(** ** File names *)

Lemma re_sub_from_class_free (p : codepoint -> bool) (repl : str)
      (b : bool) (s : str) :
  Forall (fun c => p c = false) repl ->
  Forall (fun c => p c = false) (re_sub_from p repl b s).
Proof.
  intros Hr. revert b. induction s as [|c s IH]; intros b; simpl.
  - constructor.
  - destruct (p c) eqn:E.
    + apply Forall_app. split; [destruct b; [constructor | assumption]|].
      apply IH.
    + constructor; [assumption | apply IH].
Qed.

Lemma re_sub_from_fixed (p : codepoint -> bool) (repl : str) (s : str) :
  Forall (fun c => p c = false) s ->
  forall b, re_sub_from p repl b s = s.
Proof.
  induction 1 as [|c s Hc Hs IH]; intros b; simpl; [reflexivity|].
  now rewrite Hc, IH.
Qed.

Lemma re_sub_ends (p : codepoint -> bool) (u : codepoint) (s : str) :
  isspace u = false -> ends_word s ->
  forall b,
    (b = true /\ re_sub_from p [u] b s = [])
    \/ ends_word (re_sub_from p [u] b s).
Proof.
  intros Hu. induction s as [|c s IH]; intros He b.
  - destruct He as [s' [d [Heq _]]]. now destruct s'.
  - apply ends_word_cons in He. simpl.
    destruct He as [[-> Hc] | He].
    + simpl. destruct (p c).
      * destruct b; [now left | right]. now exists [], u.
      * right. now exists [], c.
    + destruct (p c).
      * destruct (IH He true) as [[_ Hnil] | Hends].
        -- rewrite Hnil, app_nil_r.
           destruct b; [now left | right]. now exists [], u.
        -- right. now apply ends_word_app.
      * destruct (IH He false) as [[Hb _] | Hends]; [discriminate|].
        right. change (ends_word ([c] ++ re_sub_from p [u] false s)).
        now apply ends_word_app.
Qed.

Lemma safe_filename_shape (name : str) :
  Forall (fun c => forbidden c = false) (_safe_filename name) /\
  strip (_safe_filename name) = _safe_filename name.
Proof.
  unfold _safe_filename, re_sub. split.
  - apply re_sub_from_class_free. repeat constructor.
  - destruct (strip name) as [|c r] eqn:E; [reflexivity|].
    assert (Hne : strip name <> []) by (rewrite E; discriminate).
    destruct (strip_shape name Hne) as [Hs He]. rewrite E in Hs, He.
    apply strip_fixed.
    + simpl in *. destruct (forbidden c); [reflexivity | assumption].
    + destruct (re_sub_ends forbidden 0x5F (c :: r) eq_refl He false)
        as [[Hb _] | H]; [discriminate | assumption].
Qed.

(** X15.  A safe file name holds none of the nine characters of the
    class, and has no white space at its ends. *)
Theorem X15_safe_filename_clean (name : str) :
  Forall (fun c => forbidden c = false) (_safe_filename name) /\
  strip (_safe_filename name) = _safe_filename name.
Proof. apply safe_filename_shape. Qed.

(** X16.  A name without white space at its ends and without a character
    of the class is its own safe file name. *)
Theorem X16_safe_filename_fixed (name : str) :
  strip name = name -> Forall (fun c => forbidden c = false) name ->
  _safe_filename name = name.
Proof.
  intros Hs Hf. unfold _safe_filename, re_sub. rewrite Hs.
  now apply re_sub_from_fixed.
Qed.

Lemma X16_safe_filename_fixed_witness :
  _safe_filename (lit "Li Wei") = lit "Li Wei".
Proof.
  apply (X16_safe_filename_fixed (lit "Li Wei")); [reflexivity|].
  repeat constructor.
Defined.

(** X17.  Making a safe file name of a safe file name changes nothing. *)
Theorem X17_safe_filename_idempotent (name : str) :
  _safe_filename (_safe_filename name) = _safe_filename name.
Proof.
  destruct (safe_filename_shape name) as [Hf Hs].
  unfold _safe_filename at 1, re_sub. rewrite Hs.
  now apply re_sub_from_fixed.
Qed.

(** ** The lines of a page *)

Lemma re_sub_from_app (p : codepoint -> bool) (repl : str) (s t : str)
      (b : bool) :
  exists b2,
    re_sub_from p repl b (s ++ t)
    = re_sub_from p repl b s ++ re_sub_from p repl b2 t.
Proof.
  revert b. induction s as [|c s IH]; intros b.
  - now exists b.
  - simpl. destruct (p c).
    + destruct (IH true) as [b2 Hb2]. exists b2.
      now rewrite Hb2, app_assoc.
    + destruct (IH false) as [b2 Hb2]. exists b2. now rewrite Hb2.
Qed.

Lemma lstrip_re_sub (y : str) (b : bool) :
  lstrip (re_sub_from isspace [0x20] b y)
  = re_sub isspace [0x20] (lstrip y).
Proof.
  unfold re_sub. revert b. induction y as [|c y IH]; intros b.
  - reflexivity.
  - simpl. destruct (isspace c) eqn:E.
    + rewrite <- (IH true). now destruct b.
    + simpl. now rewrite E.
Qed.

Lemma rstrip_re_sub (s : str) (b : bool) :
  rstrip (re_sub_from isspace [0x20] b s)
  = re_sub_from isspace [0x20] b (rstrip s).
Proof.
  induction s as [|c s IH] using rev_ind; [reflexivity|].
  destruct (re_sub_from_app isspace [0x20] s [c] b) as [b2 Hb2].
  rewrite rstrip_snoc. destruct (isspace c) eqn:E.
  - rewrite Hb2. simpl. rewrite E. destruct b2.
    + simpl. now rewrite app_nil_r.
    + simpl. now rewrite rstrip_snoc.
  - rewrite Hb2. simpl. rewrite E. now rewrite rstrip_snoc, E.
Qed.

(** Collapsing the white space and stripping can be done in either
    order. *)
Lemma strip_re_sub (x : str) :
  strip (re_sub isspace [0x20] x) = re_sub isspace [0x20] (strip x).
Proof.
  unfold strip, re_sub at 1.
  rewrite (lstrip_re_sub x false). unfold re_sub.
  apply rstrip_re_sub.
Qed.

Lemma replace_nbsp_isspace (c : codepoint) :
  isspace (if c =? 0xA0 then 0x20 else c) = isspace c.
Proof. destruct (N.eqb_spec c 0xA0) as [-> | _]; reflexivity. Qed.

Lemma replace_nbsp_linebreak (c : codepoint) :
  is_linebreak (if c =? 0xA0 then 0x20 else c) = is_linebreak c.
Proof. destruct (N.eqb_spec c 0xA0) as [-> | _]; reflexivity. Qed.

Lemma replace_nbsp_eqb (c k : codepoint) :
  k <> 0xA0 -> k <> 0x20 ->
  ((if c =? 0xA0 then 0x20 else c) =? k) = (c =? k).
Proof.
  intros H1 H2. destruct (N.eqb_spec c 0xA0) as [-> | _]; [|reflexivity].
  destruct (N.eqb_spec 0x20 k), (N.eqb_spec 0xA0 k); congruence.
Qed.

Lemma re_sub_replace_nbsp (x : str) (b : bool) :
  re_sub_from isspace [0x20] b (replace_char 0xA0 0x20 x)
  = re_sub_from isspace [0x20] b x.
Proof.
  revert b. induction x as [|c x IH]; intros b; [reflexivity|].
  cbn [replace_char map re_sub_from]. fold (replace_char 0xA0 0x20 x).
  rewrite replace_nbsp_isspace. destruct (isspace c) eqn:E.
  - now rewrite IH.
  - rewrite IH. f_equal.
    destruct (N.eqb_spec c 0xA0) as [-> | _]; [discriminate E | reflexivity].
Qed.

Lemma splitlines_from_replace_nbsp (s cur : str) :
  splitlines_from (replace_char 0xA0 0x20 cur) (replace_char 0xA0 0x20 s)
  = map (replace_char 0xA0 0x20) (splitlines_from cur s).
Proof.
  revert cur. induction s as [|c rest IH1 IH2] using str_ind2; intros cur.
  - simpl. now destruct cur.
  - cbn [replace_char map]. fold (replace_char 0xA0 0x20 rest).
    rewrite !splitlines_from_cons, replace_nbsp_linebreak.
    destruct (is_linebreak c) eqn:E.
    + cbn [map]. f_equal.
      destruct rest as [|d rest']; [reflexivity|].
      cbn [replace_char map after_break].
      fold (replace_char 0xA0 0x20 rest').
      rewrite !replace_nbsp_eqb by discriminate.
      destruct ((c =? 0x0D) && (d =? 0x0A)).
      * exact (IH2 d rest' eq_refl []).
      * exact (IH1 []).
    + rewrite <- IH1. unfold replace_char. now rewrite map_app.
Qed.

Lemma re_sub_empty (s : str) :
  is_empty (re_sub isspace [0x20] s) = is_empty s.
Proof.
  destruct s as [|c s]; [reflexivity|].
  unfold re_sub. simpl. now destruct (isspace c).
Qed.

Lemma clean_lines_filter (ls : list str) :
  clean_lines ls =
  filter (fun x => negb (is_empty x))
         (map (fun x => strip (re_sub isspace [0x20] x)) ls).
Proof.
  induction ls as [|l ls IH]; [reflexivity|].
  cbn [clean_lines map filter]. cbv zeta.
  rewrite strip_re_sub, re_sub_empty.
  destruct (is_empty (strip l)); simpl; now rewrite IH.
Qed.

Lemma crawler_lines_eq (text : str) :
  _clean_lines text = clean_lines (splitlines text).
Proof.
  unfold _clean_lines, splitlines.
  change (@nil codepoint) with (replace_char 0xA0 0x20 []) at 1.
  rewrite splitlines_from_replace_nbsp, map_map, clean_lines_filter.
  f_equal. apply map_ext. intros x. unfold re_sub.
  now rewrite re_sub_replace_nbsp.
Qed.

(** X18.  The line cleaner of the crawler gives the lines that the loop
    of [clean_text] gives for the same text: collapsing before stripping
    or after it makes no difference, and replacing the no-break space
    first changes nothing. *)
Theorem X18_clean_lines_agree (text : str) :
  _clean_lines text = clean_lines (splitlines text).
Proof. apply crawler_lines_eq. Qed.

(** X19.  Every line the crawler keeps is made of words with one U+0020
    between them (it is not empty and has no white space at its ends),
    and holds no line boundary. *)
Theorem X19_clean_lines_tidy (text : str) :
  Forall (fun l => tidy l /\ no_linebreak l) (_clean_lines text).
Proof.
  rewrite crawler_lines_eq.
  generalize (clean_lines_tidy (splitlines text)).
  apply Forall_impl. intros l Hl. split; [assumption|].
  now apply tidy_no_linebreak.
Qed.

(** ** The links of the directory page *)

Lemma pair_eqb_eq (a b : str * str) : pair_eqb a b = true <-> a = b.
Proof.
  unfold pair_eqb. destruct a as [a1 a2], b as [b1 b2]. simpl.
  rewrite andb_true_iff, !str_eqb_eq. split.
  - now intros [-> ->].
  - now intros [= -> ->].
Qed.

Lemma seen_In (key : str * str) (seen : list (str * str)) :
  existsb (pair_eqb key) seen = true <-> In key seen.
Proof.
  rewrite existsb_exists. split.
  - intros [k [Hk He]]. apply pair_eqb_eq in He. now subst.
  - intros H. exists key. split; [assumption | now apply pair_eqb_eq].
Qed.

Lemma unique_pairs_spec (pairs seen : list (str * str)) :
  NoDup (unique_pairs pairs seen) /\
  forall key, In key (unique_pairs pairs seen) <->
              In key pairs /\ ~ In key seen.
Proof.
  revert seen. induction pairs as [|k pairs IH]; intros seen.
  - simpl. split; [constructor | tauto].
  - simpl. destruct (existsb (pair_eqb k) seen) eqn:E.
    + apply seen_In in E. destruct (IH seen) as [IH1 IH2].
      split; [assumption|]. intros key. rewrite IH2. split.
      * tauto.
      * intros [[<- | H] Hn]; tauto.
    + assert (Hk : ~ In k seen).
      { intros H. apply seen_In in H. congruence. }
      destruct (IH (k :: seen)) as [IH1 IH2]. split.
      * constructor; [|assumption]. rewrite IH2. simpl. tauto.
      * intros key. simpl. rewrite IH2. simpl. split.
        -- intros [<- | [H Hn]]; tauto.
        -- intros [[<- | H] Hn]; [tauto|].
           destruct (pair_eqb k key) eqn:Ek.
           ++ apply pair_eqb_eq in Ek. now left.
           ++ right. split; [assumption|].
              intros [<- | Hs]; [|contradiction].
              rewrite (proj2 (pair_eqb_eq k k) eq_refl) in Ek.
              discriminate.
Qed.

Section LinkFacts.

Variable urljoin : str -> str -> str.

Lemma link_pairs_In (anchors : list (str * str)) (name url : str) :
  In (name, url) (link_pairs urljoin anchors) <->
  exists href,
    In (name, href) anchors /\
    str_in (lit "/info/") href = true /\
    name_matches name = true /\
    url = urljoin BASE href.
Proof.
  induction anchors as [|[n h] anchors IH].
  - simpl. split; [tauto | intros [? [[] _]]].
  - cbn [link_pairs].
    destruct (is_empty n) eqn:En;
      [|destruct (is_empty h) eqn:Eh;
        [|destruct (str_in (lit "/info/") h) eqn:Ei;
          [destruct (name_matches n) eqn:Em|]]]; cbn [negb].
    + apply is_empty_true in En. subst n. rewrite IH. split.
      * intros [href [Hin H]]. exists href. split; [now right | assumption].
      * intros [href [[[= <- <-] | Hin] [H1 [H2 H3]]]];
          [discriminate H2 | now exists href].
    + apply is_empty_true in Eh. subst h. rewrite IH. split.
      * intros [href [Hin H]]. exists href. split; [now right | assumption].
      * intros [href [[[= <- <-] | Hin] [H1 [H2 H3]]]];
          [discriminate H1 | now exists href].
    + simpl. rewrite IH. split.
      * intros [[= <- <-] | [href [Hin H]]].
        -- exists h. split; [now left | auto].
        -- exists href. split; [now right | assumption].
      * intros [href [[[= <- <-] | Hin] [H1 [H2 H3]]]].
        -- left. now rewrite H3.
        -- right. now exists href.
    + rewrite IH. split.
      * intros [href [Hin H]]. exists href. split; [now right | assumption].
      * intros [href [[[= <- <-] | Hin] [H1 [H2 H3]]]];
          [congruence | now exists href].
    + rewrite IH. split.
      * intros [href [Hin H]]. exists href. split; [now right | assumption].
      * intros [href [[[= <- <-] | Hin] [H1 [H2 H3]]]];
          [congruence | now exists href].
Qed.

Lemma parse_teacher_links_In (anchors : list (str * str)) (name url : str) :
  In (name, url) (parse_teacher_links urljoin anchors) <->
  exists href,
    In (name, href) anchors /\
    str_in (lit "/info/") href = true /\
    name_matches name = true /\
    url = urljoin BASE href.
Proof.
  unfold parse_teacher_links.
  destruct (unique_pairs_spec (link_pairs urljoin anchors) []) as [_ H].
  rewrite H, link_pairs_In. simpl. tauto.
Qed.

(** X20.  The links of the directory page hold no pair twice, and a pair
    of a name and a URL is among them exactly when some anchor has this
    name as its text, a reference with [/info/] in it that joins with
    the base to this URL, and the name is two to ten characters out of
    U+4E00..U+9FFF and the middle dot. *)
Theorem X20_parse_teacher_links (anchors : list (str * str)) :
  NoDup (parse_teacher_links urljoin anchors) /\
  forall name url,
    In (name, url) (parse_teacher_links urljoin anchors) <->
    exists href,
      In (name, href) anchors /\
      str_in (lit "/info/") href = true /\
      name_matches name = true /\
      url = urljoin BASE href.
Proof.
  split.
  - unfold parse_teacher_links. apply unique_pairs_spec.
  - intros name url. apply parse_teacher_links_In.
Qed.

End LinkFacts.

Lemma is_name_char_high (c : codepoint) :
  0x10000 <= c -> is_name_char c = false.
Proof. unfold is_name_char. intros H. N_cases; reflexivity. Qed.

Lemma is_name_char_plain_b (c : codepoint) :
  implb (is_name_char c) (negb (isspace c) && negb (forbidden c)) = true.
Proof.
  revert c. apply by_plane; [vm_compute; reflexivity|].
  intros c H. now rewrite (is_name_char_high c H).
Qed.

Lemma name_matches_plain (name : str) :
  name_matches name = true ->
  name <> [] /\
  Forall (fun c => isspace c = false) name /\
  Forall (fun c => forbidden c = false) name.
Proof.
  unfold name_matches. intros H.
  apply andb_true_iff in H. destruct H as [H Hall].
  apply andb_true_iff in H. destruct H as [Hlen _].
  split; [destruct name; [discriminate Hlen | discriminate]|].
  rewrite forallb_forall in Hall.
  split; apply Forall_forall; intros c Hc; specialize (Hall c Hc);
    pose proof (is_name_char_plain_b c) as Hb; rewrite Hall in Hb;
    apply andb_true_iff in Hb; destruct Hb as [H1 H2];
    now apply negb_true_iff.
Qed.

Lemma word_strip (w : str) : word w -> strip w = w.
Proof.
  intros Hw. apply tidy_strip. now apply tidy_one.
Qed.

(** X21.  The name of every link of the directory page is its own safe
    file name: the file of a subject is its name followed by [.txt]. *)
Theorem X21_link_names_safe (urljoin : str -> str -> str)
        (anchors : list (str * str)) (name url : str) :
  In (name, url) (parse_teacher_links urljoin anchors) ->
  _safe_filename name = name.
Proof.
  intros H. apply parse_teacher_links_In in H.
  destruct H as [href [_ [_ [Hm _]]]].
  apply name_matches_plain in Hm. destruct Hm as [Hne [Hs Hf]].
  unfold _safe_filename, re_sub.
  rewrite (word_strip name (conj Hne Hs)).
  now apply re_sub_from_fixed.
Qed.

Lemma X21_link_names_safe_witness :
  _safe_filename [0x738B; 0x00B7; 0x660E] = [0x738B; 0x00B7; 0x660E].
Proof.
  apply (X21_link_names_safe (fun base href => base ++ href)
           [([0x738B; 0x00B7; 0x660E], lit "/info/1.htm")]
           [0x738B; 0x00B7; 0x660E] (BASE ++ lit "/info/1.htm")).
  now left.
Defined.

(** ** The research text of a page *)

(** X22.  The extracted text is empty, or it has at least ten characters
    and no white space at its ends. *)
Theorem X22_extract_length (raw_text : str) :
  extract_research_text raw_text = [] \/
  (10 <= List.length (extract_research_text raw_text))%nat /\
  strip (extract_research_text raw_text) = extract_research_text raw_text.
Proof.
  unfold extract_research_text. cbv zeta.
  destruct (Nat.ltb_spec
    (List.length (strip (join [0x0A] (out_parts_of TARGET_TITLES
       (scan_sections (_clean_lines raw_text)
          (map (fun t => (t, [])) TARGET_TITLES)))))) 10) as [Hlt | Hge].
  - now left.
  - right. split; [assumption | apply strip_strip].
Qed.

Lemma scan_sections_no_title (lines : list str)
      (sections : dict (list str)) :
  Forall (fun l => list_in (sub_trailing_colon l) (keys sections) = false)
         lines ->
  scan_sections lines sections = sections.
Proof.
  induction 1 as [|l lines Hl Hls IH]; [reflexivity|].
  cbn [scan_sections]. cbv zeta. now rewrite Hl.
Qed.

(** X23.  When no line of the page is one of the three target titles,
    with or without a colon at its end, nothing is extracted. *)
Theorem X23_extract_no_title (raw_text : str) :
  Forall (fun l => list_in (sub_trailing_colon l) TARGET_TITLES = false)
         (_clean_lines raw_text) ->
  extract_research_text raw_text = [].
Proof.
  intros H. unfold extract_research_text. cbv zeta.
  rewrite scan_sections_no_title; [reflexivity | exact H].
Qed.

Lemma X23_extract_no_title_witness :
  extract_research_text
    ([0x6559; 0x80B2; 0x80CC; 0x666F; 0x0A] ++ lit "Tsinghua, 1999") = [].
Proof.
  apply (X23_extract_no_title
           ([0x6559; 0x80B2; 0x80CC; 0x666F; 0x0A] ++ lit "Tsinghua, 1999")).
  vm_compute. repeat constructor.
Defined.

(** ** A page with one section *)

Lemma scan_sections_cons (line : str) (rest : list str)
      (sections : dict (list str)) :
  scan_sections (line :: rest) sections =
  if list_in (sub_trailing_colon line) (keys sections)
  then inner_loop (sub_trailing_colon line) sections rest []
  else scan_sections rest sections.
Proof. reflexivity. Qed.

Lemma inner_loop_content (normalized : str) (sections : dict (list str))
      (ls : list str) :
  Forall (fun l => content_line l = true) ls ->
  forall buf,
    inner_loop normalized sections ls buf
    = store normalized (buf ++ ls) sections.
Proof.
  induction 1 as [|l ls Hl Hls IH]; intros buf.
  - simpl. now rewrite app_nil_r.
  - cbn [inner_loop]. cbv zeta. unfold content_line in Hl.
    apply andb_true_iff in Hl. destruct Hl as [Hl Hn].
    apply andb_true_iff in Hl. destruct Hl as [H1 H2].
    apply negb_true_iff in H1, H2, Hn. rewrite H1, H2, Hn. simpl.
    rewrite IH, <- app_assoc. reflexivity.
Qed.

Lemma merge_lines_NoDup (buf content : list str) :
  NoDup (content ++ buf) -> merge_lines buf content = content ++ buf.
Proof.
  revert content. induction buf as [|x buf IH]; intros content Hnd.
  - simpl. now rewrite app_nil_r.
  - simpl. assert (Hx : list_in x content = false).
    { destruct (list_in x content) eqn:E; [|reflexivity].
      apply list_in_In in E. apply NoDup_remove_2 in Hnd.
      exfalso. apply Hnd. apply in_or_app. now left. }
    rewrite Hx, IH.
    + now rewrite <- app_assoc.
    + now rewrite <- app_assoc.
Qed.

Lemma join_snoc_empty (ls : list str) :
  ls <> [] -> join [0x0A] (ls ++ [[]]) = join [0x0A] ls ++ [0x0A].
Proof.
  induction ls as [|l ls IH]; [congruence|]. intros _.
  destruct ls as [|l' ls'].
  - simpl. reflexivity.
  - change (join [0x0A] ((l :: l' :: ls') ++ [[]]))
      with (l ++ 0x0A :: join [0x0A] ((l' :: ls') ++ [[]])).
    rewrite IH by discriminate.
    change (join [0x0A] (l :: l' :: ls'))
      with (l ++ 0x0A :: join [0x0A] (l' :: ls')).
    now rewrite <- app_assoc.
Qed.

Lemma target_title_tidy (t : str) : In t TARGET_TITLES -> tidy t.
Proof.
  intros H. apply tidy_one. simpl in H.
  destruct H as [<- | [<- | [<- | []]]];
    (split; [discriminate | repeat constructor]).
Qed.

Lemma out_parts_one (t : str) (c0 : str) (cs : list str) :
  In t TARGET_TITLES ->
  out_parts_of TARGET_TITLES
    (dict_set t (c0 :: cs) (map (fun t => (t, [])) TARGET_TITLES))
  = t :: (c0 :: cs) ++ [[]].
Proof.
  intros H. simpl in H.
  destruct H as [<- | [<- | [<- | []]]]; cbn; now rewrite ?app_nil_r.
Qed.

(** X24.  A page whose first line is a target title, with or without a
    colon, and whose other lines are distinct content lines gives the
    title and these lines, one per line, when that text has ten
    characters or more, and nothing when it is shorter. *)
Theorem X24_extract_one_section (raw_text line t : str)
        (content : list str) :
  _clean_lines raw_text = line :: content ->
  sub_trailing_colon line = t -> In t TARGET_TITLES ->
  content <> [] ->
  Forall (fun l => content_line l = true) content ->
  NoDup content ->
  extract_research_text raw_text =
  if Nat.ltb (List.length (join [0x0A] (t :: content))) 10 then []
  else join [0x0A] (t :: content).
Proof.
  intros Hlines Ht Hin Hne Hc Hnd.
  assert (Htidy : Forall tidy (t :: content)).
  { constructor; [now apply target_title_tidy|].
    pose proof (clean_lines_tidy (splitlines raw_text)) as H.
    rewrite <- crawler_lines_eq, Hlines in H. now inversion H. }
  unfold extract_research_text. cbv zeta.
  rewrite Hlines, scan_sections_cons, Ht.
  assert (Hk : list_in t (keys (map (fun t => (t, @nil str)) TARGET_TITLES))
               = true) by now apply list_in_In.
  rewrite Hk, (inner_loop_content _ _ _ Hc). unfold store. simpl app.
  assert (Hg : section_get t (map (fun t => (t, @nil str)) TARGET_TITLES)
               = []).
  { simpl in Hin. destruct Hin as [<- | [<- | [<- | []]]]; reflexivity. }
  rewrite Hg, (merge_lines_NoDup content [] Hnd). simpl app.
  destruct content as [|c0 cs]; [congruence|].
  rewrite (out_parts_one t c0 cs Hin).
  change (t :: (c0 :: cs) ++ [[]]) with ((t :: c0 :: cs) ++ [[]]).
  rewrite join_snoc_empty by discriminate.
  assert (Hs : strip (join [0x0A] (t :: c0 :: cs) ++ [0x0A])
               = join [0x0A] (t :: c0 :: cs)).
  { assert (Hx : strip (join [0x0A] (t :: c0 :: cs))
                 = join [0x0A] (t :: c0 :: cs)).
    { apply strip_fixed.
      - inversion Htidy as [|? ? Ht' _]; subst.
        rewrite starts_space_join; [now apply tidy_starts|].
        pose proof (tidy_nonempty _ Ht'). now destruct (sub_trailing_colon line).
      - apply ends_word_join; [discriminate | assumption]. }
    unfold strip in *.
    assert (Hl : lstrip (join [0x0A] (t :: c0 :: cs) ++ [0x0A])
                 = lstrip (join [0x0A] (t :: c0 :: cs)) ++ [0x0A]).
    { inversion Htidy as [|? ? Ht' _]; subst.
      pose proof (tidy_starts _ Ht') as Hst.
      pose proof (tidy_nonempty _ Ht') as Hn.
      destruct (sub_trailing_colon line) as [|x r]; [discriminate Hn|].
      simpl in Hst. simpl. now rewrite Hst. }
    now rewrite Hl, rstrip_snoc. }
  now rewrite Hs.
Qed.

Lemma X24_extract_one_section_witness :
  extract_research_text
    ([0x7814; 0x7A76; 0x65B9; 0x5411; 0xFF1A; 0x0A]
       ++ lit " machine   learning " ++ [0x0A] ++ lit "vision")
  = [0x7814; 0x7A76; 0x65B9; 0x5411; 0x0A]
      ++ lit "machine learning" ++ [0x0A] ++ lit "vision".
Proof.
  apply (X24_extract_one_section
           ([0x7814; 0x7A76; 0x65B9; 0x5411; 0xFF1A; 0x0A]
              ++ lit " machine   learning " ++ [0x0A] ++ lit "vision")
           [0x7814; 0x7A76; 0x65B9; 0x5411; 0xFF1A]
           [0x7814; 0x7A76; 0x65B9; 0x5411]
           [lit "machine learning"; lit "vision"]).
  - reflexivity.
  - reflexivity.
  - right. now left.
  - discriminate.
  - repeat constructor.
  - repeat constructor; simpl; intuition discriminate.
Defined.

(* ===================================================================== *)
(** * The matched list and the cleaned text, in one formula               *)
(* ===================================================================== *)

(** X25.  The matched list of a text is the keyword list with the
    keywords that do not match left out: the keywords that match keep
    their order. *)
Theorem X25_found_in_order (U : UnicodeDB) (keywords : list str)
        (text : str) :
  found_in U keywords text =
  filter (fun kw => keyword_matches U text (normalize_for_match U text)
                                    kw (normalize_for_match U kw))
         keywords.
Proof.
  unfold found_in, normalized_keywords_of.
  induction keywords as [|k ks IH]; [reflexivity|].
  simpl. destruct (keyword_matches U text _ k _); now rewrite IH.
Qed.

Section CleanedWords.

Variable U : UnicodeDB.
Hypothesis laws : case_laws U.

Lemma lower_join_space (ws : list str) :
  lower U (join [0x20] ws) = join [0x20] (map (lower U) ws).
Proof.
  induction ws as [|w ws IH]; [exact (lower_nil laws)|].
  destruct ws as [|w' ws']; [reflexivity|].
  change (join [0x20] (w :: w' :: ws'))
    with (w ++ 0x20 :: join [0x20] (w' :: ws')).
  rewrite (lower_split laws w 0x20 _ eq_refl), IH. reflexivity.
Qed.

(** X26.  The cleaned text of a string that is not empty: take its NFKC
    form with the punctuation translated, line by line; leave out the
    lines without a word; lower every word; put one U+0020 between the
    words of a line and one line feed between the lines. *)
Theorem X26_clean_text_by_words (x : str) :
  x <> [] ->
  clean_text U x =
  join [0x0A]
    (map (fun l => join [0x20] (map (lower U) (words l)))
         (filter has_words
                 (splitlines (translate PUNCT_TRANSLATION (nfkc U x))))).
Proof.
  intros Hne. unfold clean_text.
  apply is_empty_false in Hne. rewrite Hne.
  rewrite (lower_join U laws), clean_lines_by_words, map_map.
  f_equal. apply map_ext. intros l. apply lower_join_space.
Qed.

End CleanedWords.

Lemma X26_clean_text_by_words_witness :
  clean_text Ucd.db (lit " Deep  Learning" ++ [0x0A; 0x0A] ++ lit "AI ")
  = lit "deep learning" ++ [0x0A] ++ lit "ai".
Proof.
  apply (X26_clean_text_by_words Ucd.db Ucd_case_laws
           (lit " Deep  Learning" ++ [0x0A; 0x0A] ++ lit "AI ")).
  discriminate.
Defined.
